(** * AeX402 StableSwap math: a shallow embedding of [math.hpp], of the
    math namespace and the helpers of [stableswap.hpp], and of the candle of
    [types.hpp]

    Unsigned 64-bit and 128-bit values are integers of [Z] with the
    wrap-around of every C++ operation written out.  A function whose body
    divides returns an [outcome]: integer division by zero and signed
    overflow are undefined behaviour in C++ and are kept apart from the
    [std::nullopt] result, which is the [None] of the returned option. *)

From Stdlib Require Import String Ascii.
From Stdlib Require Import ZArith Lia Bool List.
Import ListNotations.

Open Scope Z_scope.

(** ** Machine integers *)

Definition wrap (bits z : Z) : Z := z mod 2 ^ bits.

Definition u64 (z : Z) : Z := wrap 64 z.
Definition u128 (z : Z) : Z := wrap 128 z.

Definition UINT64_MAX : Z := 2 ^ 64 - 1.
Definition UINT128_MAX : Z := 2 ^ 128 - 1.
Definition INT64_MIN : Z := - 2 ^ 63.
Definition INT64_MAX : Z := 2 ^ 63 - 1.

Definition is_u64 (z : Z) : Prop := 0 <= z <= UINT64_MAX.
Definition is_u128 (z : Z) : Prop := 0 <= z <= UINT128_MAX.
Definition is_i64 (z : Z) : Prop := INT64_MIN <= z <= INT64_MAX.

(** ** Outcomes of a call *)

Inductive outcome (A : Type) : Type :=
| Ret (a : A)        (* the call returns [a] *)
| DivByZero          (* an integer division by zero is evaluated *)
| SignedOverflow     (* a signed 64-bit operation overflows *)
| OutOfFuel.         (* a [while] loop outlives the fuel of its model *)

Arguments Ret {A} a.
Arguments DivByZero {A}.
Arguments SignedOverflow {A}.
Arguments OutOfFuel {A}.

Definition bind {A B : Type} (m : outcome A) (k : A -> outcome B) : outcome B :=
  match m with
  | Ret a => k a
  | DivByZero => DivByZero
  | SignedOverflow => SignedOverflow
  | OutOfFuel => OutOfFuel
  end.

Notation "x <- m ;; k" := (bind m (fun x => k))
  (at level 61, m at next level, right associativity).

(** The operator [/] of C++ on unsigned operands. *)
Definition udiv (n d : Z) : outcome Z :=
  if d =? 0 then DivByZero else Ret (n / d).

(** The operator [-] of C++ on [int64_t] operands. *)
Definition sub_i64 (a b : Z) : outcome Z :=
  let r := a - b in
  if (INT64_MIN <=? r) && (r <=? INT64_MAX) then Ret r else SignedOverflow.

(** ** Constants (constants.hpp, math.hpp) *)

Definition MIN_AMP : Z := 1.
Definition MAX_AMP : Z := 100000.
Definition NEWTON_ITERATIONS : nat := 255.
Definition FEE_DENOMINATOR : Z := 10000.
Definition PRECISION : Z := 1000000000000.

(** ** math.hpp *)

Module MathHpp.

(** *** 128-bit helpers and integer square roots *)

Definition mul128 (a b : Z) : Z := u128 (a * b).

Definition div128 (n d : Z) : Z :=
  if d =? 0 then 0 else u64 (n / d).

(** The loop [while (y < x) { x = y; y = (x + n / x) / 2; }] followed by
    [return x], on [bits]-wide unsigned variables.  The loop of the source has
    no counter; [fuel] bounds the iterations of the model. *)
Fixpoint isqrt_loop (bits : Z) (fuel : nat) (n x y : Z) : outcome Z :=
  if y <? x then
    match fuel with
    | O => OutOfFuel
    | S fuel' =>
        q <- udiv n y ;;
        isqrt_loop bits fuel' n y (wrap bits (y + q) / 2)
    end
  else Ret x.

(** More iterations than either loop can make: the distance to the root
    halves at every step. *)
Definition ISQRT_FUEL : nat := 130.

Definition isqrt (n : Z) : outcome Z :=
  if n =? 0 then Ret 0
  else if n <=? 3 then Ret 1
  else isqrt_loop 64 ISQRT_FUEL n n (u64 (n + 1) / 2).

Definition isqrt128 (n : Z) : outcome Z :=
  if n =? 0 then Ret 0
  else if n <=? 3 then Ret 1
  else x <- isqrt_loop 128 ISQRT_FUEL n n (u128 (n + 1) / 2) ;; Ret (u64 x).

(** *** Two-token pool *)

(** The body of [for (int i = 0; i < NEWTON_ITERATIONS; i++)] in [calc_d];
    [iters] counts the iterations that are left. *)
Fixpoint calc_d_loop (iters : nat) (x y s ann d : Z) : outcome (option Z) :=
  match iters with
  | O => Ret None
  | S iters' =>
      t <- udiv (mul128 d d) (u64 (2 * x)) ;;
      d_p <- udiv (u128 (t * d)) (u64 (2 * y)) ;;
      let d_prev := d in
      let num := u128 (u128 (mul128 ann s + u128 (d_p * 2)) * d) in
      let denom := u128 (mul128 (u64 (ann - 1)) d + u128 (d_p * 3)) in
      if denom =? 0 then Ret None
      else
        let d := u64 (num / denom) in
        if d >? d_prev then
          if u64 (d - d_prev) <=? 1 then Ret (Some d)
          else calc_d_loop iters' x y s ann d
        else
          if u64 (d_prev - d) <=? 1 then Ret (Some d)
          else calc_d_loop iters' x y s ann d
  end.

Definition calc_d (x y amp : Z) : outcome (option Z) :=
  let s := u64 (x + y) in
  if s =? 0 then Ret (Some 0)
  else
    let d := s in
    let ann := u64 (amp * 4) in
    calc_d_loop NEWTON_ITERATIONS x y s ann d.

Fixpoint calc_y_loop (iters : nat) (c b d y : Z) : outcome (option Z) :=
  match iters with
  | O => Ret None
  | S iters' =>
      let y_prev := y in
      let num := u128 (mul128 y y + c) in
      let denom := u64 (2 * y + b - d) in
      if denom =? 0 then Ret None
      else
        let y := u64 (num / denom) in
        if y >? y_prev then
          if u64 (y - y_prev) <=? 1 then Ret (Some y)
          else calc_y_loop iters' c b d y
        else
          if u64 (y_prev - y) <=? 1 then Ret (Some y)
          else calc_y_loop iters' c b d y
  end.

Definition calc_y (x_new d amp : Z) : outcome (option Z) :=
  let ann := u64 (amp * 4) in
  t <- udiv (mul128 d d) (u64 (2 * x_new)) ;;
  c <- udiv (u128 (t * d)) (u64 (2 * ann)) ;;
  q <- udiv d ann ;;
  let b := u64 (x_new + q) in
  calc_y_loop NEWTON_ITERATIONS c b d d.

Definition simulate_swap (bal_in bal_out amount_in amp fee_bps : Z)
  : outcome (option Z) :=
  d <- calc_d bal_in bal_out amp ;;
  match d with
  | None => Ret None
  | Some d =>
      let new_bal_in := u64 (bal_in + amount_in) in
      new_bal_out <- calc_y new_bal_in d amp ;;
      match new_bal_out with
      | None => Ret None
      | Some new_bal_out =>
          if new_bal_out >=? bal_out then Ret (Some 0)
          else
            let amount_out := u64 (bal_out - new_bal_out) in
            let fee := u64 (amount_out * fee_bps) / FEE_DENOMINATOR in
            Ret (Some (u64 (amount_out - fee)))
      end
  end.

Definition calc_initial_lp (amount0 amount1 : Z) : outcome Z :=
  let product := mul128 amount0 amount1 in
  isqrt128 product.

Definition calc_lp_tokens (amt0 amt1 bal0 bal1 lp_supply amp : Z)
  : outcome (option Z) :=
  if lp_supply =? 0 then
    lp <- calc_initial_lp amt0 amt1 ;; Ret (Some lp)
  else
    d0 <- calc_d bal0 bal1 amp ;;
    d1 <- calc_d (u64 (bal0 + amt0)) (u64 (bal1 + amt1)) amp ;;
    match d0, d1 with
    | Some d0, Some d1 =>
        if d0 =? 0 then Ret None
        else
          lp <- udiv (mul128 lp_supply (u64 (d1 - d0))) d0 ;;
          Ret (Some (u64 lp))
    | _, _ => Ret None
    end.

Record WithdrawResult : Type := mkWithdrawResult {
  amount0 : Z;
  amount1 : Z
}.

Definition calc_withdraw (lp_amount bal0 bal1 lp_supply : Z)
  : option WithdrawResult :=
  if lp_supply =? 0 then None
  else
    let amount0 := div128 (mul128 bal0 lp_amount) lp_supply in
    let amount1 := div128 (mul128 bal1 lp_amount) lp_supply in
    Some (mkWithdrawResult amount0 amount1).

(** *** Amplification ramp *)

(** [amp] and [target_amp] are [uint64_t]; [ramp_start], [ramp_end] and [now]
    are [int64_t]. *)
Definition get_current_amp (amp target_amp ramp_start ramp_end now : Z)
  : outcome Z :=
  if (now >=? ramp_end) || (ramp_end =? ramp_start) then Ret target_amp
  else if now <=? ramp_start then Ret amp
  else
    elapsed <- sub_i64 now ramp_start ;;
    duration <- sub_i64 ramp_end ramp_start ;;
    if target_amp >? amp then
      q <- udiv (u64 (u64 (target_amp - amp) * u64 elapsed)) (u64 duration) ;;
      Ret (u64 (amp + q))
    else
      q <- udiv (u64 (u64 (amp - target_amp) * u64 elapsed)) (u64 duration) ;;
      Ret (u64 (amp - q)).

(** *** Slippage and virtual price *)

Definition calc_min_output (expected_output slippage_bps : Z) : Z :=
  u64 (expected_output * u64 (FEE_DENOMINATOR - slippage_bps)) / FEE_DENOMINATOR.

Definition PRECISION_18 : Z := 1000000000000000000.

(** The result is a [__uint128_t]. *)
Definition calc_virtual_price (bal0 bal1 lp_supply amp : Z)
  : outcome (option Z) :=
  if lp_supply =? 0 then Ret None
  else
    d <- calc_d bal0 bal1 amp ;;
    match d with
    | None => Ret None
    | Some d =>
        q <- udiv (u128 (u128 d * PRECISION_18)) lp_supply ;;
        Ret (Some q)
    end.

(** *** N-token pool *)

(** The pointer [balances] and the count [n_tokens] (a [uint8_t], at most
    255) are modelled as the list of the [n_tokens] balances that the function
    reads. *)
Definition n_tokens_of (balances : list Z) : Z := Z.of_nat (length balances).

(** The first loop of [calc_d_n]: [s += balances[i]; nn *= n_tokens;]. *)
Fixpoint sum_and_nn (balances : list Z) (n_tokens s nn : Z) : Z * Z :=
  match balances with
  | [] => (s, nn)
  | b :: rest => sum_and_nn rest n_tokens (u64 (s + b)) (u128 (nn * n_tokens))
  end.

(** The inner loop of [calc_d_n]; [None] is its [return std::nullopt]. *)
Fixpoint d_p_loop (balances : list Z) (n_tokens d d_p : Z)
  : outcome (option Z) :=
  match balances with
  | [] => Ret (Some d_p)
  | b :: rest =>
      if b =? 0 then Ret None
      else
        d_p <- udiv (u128 (d_p * d)) (u64 (n_tokens * b)) ;;
        d_p_loop rest n_tokens d d_p
  end.

Fixpoint calc_d_n_loop (iters : nat) (balances : list Z) (n_tokens s ann d : Z)
  : outcome (option Z) :=
  match iters with
  | O => Ret None
  | S iters' =>
      r <- d_p_loop balances n_tokens d d ;;
      match r with
      | None => Ret None
      | Some d_p =>
          let d_prev := d in
          let num := u128 (u128 (mul128 ann s + u128 (d_p * n_tokens)) * d) in
          let denom :=
            u128 (mul128 (u64 (ann - 1)) d + u128 (d_p * (n_tokens + 1))) in
          if denom =? 0 then Ret None
          else
            let d := u64 (num / denom) in
            if d >? d_prev then
              if u64 (d - d_prev) <=? 1 then Ret (Some d)
              else calc_d_n_loop iters' balances n_tokens s ann d
            else
              if u64 (d_prev - d) <=? 1 then Ret (Some d)
              else calc_d_n_loop iters' balances n_tokens s ann d
      end
  end.

Definition calc_d_n (balances : list Z) (amp : Z) : outcome (option Z) :=
  let n_tokens := n_tokens_of balances in
  let (s, nn) := sum_and_nn balances n_tokens 0 1 in
  if s =? 0 then Ret (Some 0)
  else
    let d := s in
    let ann := u64 (amp * u64 nn) in
    calc_d_n_loop NEWTON_ITERATIONS balances n_tokens s ann d.

(** *** N-token swap *)

Definition MAX_TOKENS : Z := 8.

(** The loop [for (i = 0; i < n_tokens; i++) nn *= n_tokens;]. *)
Fixpoint nn_loop (count : nat) (n_tokens nn : Z) : Z :=
  match count with
  | O => nn
  | S count' => nn_loop count' n_tokens (u128 (nn * n_tokens))
  end.

(** The loop of [calc_y_n] over the tokens other than the output token,
    from index [i] on; [balances] holds the balances from [i] on.  The entry
    [new_balances[from_idx]] is [balances[from_idx] + amount_in].  The result
    is the pair of [s_prime] and [c], or [None] for [return std::nullopt]. *)
Fixpoint c_loop (balances : list Z) (i n_tokens from_idx to_idx amount_in d : Z)
  (s_prime c : Z) : outcome (option (Z * Z)) :=
  match balances with
  | [] => Ret (Some (s_prime, c))
  | bal :: rest =>
      if i =? to_idx then
        c_loop rest (i + 1) n_tokens from_idx to_idx amount_in d s_prime c
      else
        let x := if i =? from_idx then u64 (bal + amount_in) else bal in
        let s_prime := u64 (s_prime + x) in
        if x =? 0 then Ret None
        else
          c <- udiv (u128 (c * d)) (u64 (n_tokens * x)) ;;
          c_loop rest (i + 1) n_tokens from_idx to_idx amount_in d s_prime c
  end.

Fixpoint calc_y_n_loop (iters : nat) (c b d y : Z) : outcome (option Z) :=
  match iters with
  | O => Ret None
  | S iters' =>
      let y_prev := y in
      let num := u128 (mul128 y y + u64 c) in
      let denom := u64 (2 * y + b - d) in
      if denom =? 0 then Ret None
      else
        let y := u64 (num / denom) in
        if y >? y_prev then
          if u64 (y - y_prev) <=? 1 then Ret (Some y)
          else calc_y_n_loop iters' c b d y
        else
          if u64 (y_prev - y) <=? 1 then Ret (Some y)
          else calc_y_n_loop iters' c b d y
  end.

(** The model is of the calls with [n_tokens <= MAX_TOKENS] and both indices
    below [n_tokens]; other calls access [new_balances] or [balances] out of
    bounds. *)
Definition calc_y_n (balances : list Z) (from_idx to_idx amount_in amp : Z)
  : outcome (option Z) :=
  let n_tokens := n_tokens_of balances in
  d <- calc_d_n balances amp ;;
  match d with
  | None => Ret None
  | Some d =>
      let nn := nn_loop (length balances) n_tokens 1 in
      let ann := u64 (amp * u64 nn) in
      r <- c_loop balances 0 n_tokens from_idx to_idx amount_in d 0 d ;;
      match r with
      | None => Ret None
      | Some (s_prime, c) =>
          c <- udiv (u128 (c * d)) (u64 (ann * n_tokens)) ;;
          q <- udiv d ann ;;
          let b := u64 (s_prime + q) in
          calc_y_n_loop NEWTON_ITERATIONS c b d d
      end
  end.

Definition simulate_swap_n (balances : list Z)
  (from_idx to_idx amount_in amp fee_bps : Z) : outcome (option Z) :=
  new_y <- calc_y_n balances from_idx to_idx amount_in amp ;;
  match new_y with
  | None => Ret None
  | Some new_y =>
      let bal_to := nth (Z.to_nat to_idx) balances 0 in
      if new_y >=? bal_to then Ret (Some 0)
      else
        let amount_out := u64 (bal_to - new_y) in
        let fee := u64 (amount_out * fee_bps) / FEE_DENOMINATOR in
        Ret (Some (u64 (amount_out - fee)))
  end.

(** *** Farming *)

Definition calc_pending_reward (staked acc_reward reward_debt : Z) : Z :=
  let earned := mul128 staked acc_reward / PRECISION in
  if earned <=? reward_debt then 0
  else u64 (earned - reward_debt).

Definition calc_new_acc_reward (current_acc reward total_staked : Z) : Z :=
  if total_staked =? 0 then current_acc
  else
    let increase := mul128 reward PRECISION / total_staked in
    u64 (current_acc + u64 increase).

(** *** Checks *)

Definition MIN_SWAP : Z := 100000.

Definition check_imbalance (bal0 bal1 max_ratio : Z) : bool :=
  if (bal0 =? 0) || (bal1 =? 0) then false
  else if bal0 >? bal1 then bal0 <=? u64 (bal1 * max_ratio)
  else bal1 <=? u64 (bal0 * max_ratio).

Definition check_min_amount (amount min : Z) : bool := amount >=? min.

Definition check_amp (amp : Z) : bool := (amp >=? MIN_AMP) && (amp <=? MAX_AMP).

End MathHpp.

(** ** stableswap.hpp *)

Module StableswapHpp.

(** The fields of [struct Pool] that [get_amp] reads. *)
Record Pool : Type := mkPool {
  amp : Z;
  target_amp : Z;
  ramp_start : Z;
  ramp_end : Z
}.

Definition get_amp (p : Pool) (now : Z) : outcome Z :=
  if (now >=? ramp_end p) || (ramp_end p =? ramp_start p) then Ret (target_amp p)
  else if now <=? ramp_start p then Ret (amp p)
  else
    elapsed <- sub_i64 now (ramp_start p) ;;
    duration <- sub_i64 (ramp_end p) (ramp_start p) ;;
    if target_amp p >? amp p then
      q <- udiv (u64 (u64 (target_amp p - amp p) * u64 elapsed)) (u64 duration) ;;
      Ret (u64 (amp p + q))
    else
      q <- udiv (u64 (u64 (amp p - target_amp p) * u64 elapsed)) (u64 duration) ;;
      Ret (u64 (amp p - q)).

(** Here [(ann - 1) * d] is a product of two [uint64_t] and the quotient
    [num / denom] is not guarded. *)
Fixpoint calc_d_loop (iters : nat) (x y s ann d : Z) : outcome (option Z) :=
  match iters with
  | O => Ret None
  | S iters' =>
      t <- udiv (u128 (d * d)) (u64 (2 * x)) ;;
      d_p <- udiv (u128 (t * d)) (u64 (2 * y)) ;;
      let d_prev := d in
      let num := u128 (u128 (u128 (ann * s) + u128 (d_p * 2)) * d) in
      let denom := u128 (u64 (u64 (ann - 1) * d) + u128 (d_p * 3)) in
      q <- udiv num denom ;;
      let d := u64 q in
      if d >? d_prev then
        if u64 (d - d_prev) <=? 1 then Ret (Some d)
        else calc_d_loop iters' x y s ann d
      else
        if u64 (d_prev - d) <=? 1 then Ret (Some d)
        else calc_d_loop iters' x y s ann d
  end.

Definition calc_d (x y amp : Z) : outcome (option Z) :=
  let s := u64 (x + y) in
  if s =? 0 then Ret (Some 0)
  else
    let d := s in
    let ann := u64 (amp * 4) in
    calc_d_loop NEWTON_ITERATIONS x y s ann d.

Fixpoint calc_y_loop (iters : nat) (c b d y : Z) : outcome (option Z) :=
  match iters with
  | O => Ret None
  | S iters' =>
      let y_prev := y in
      let num := u128 (u128 (y * y) + c) in
      let denom := u64 (2 * y + b - d) in
      q <- udiv num denom ;;
      let y := u64 q in
      if y >? y_prev then
        if u64 (y - y_prev) <=? 1 then Ret (Some y)
        else calc_y_loop iters' c b d y
      else
        if u64 (y_prev - y) <=? 1 then Ret (Some y)
        else calc_y_loop iters' c b d y
  end.

Definition calc_y (x_new d amp : Z) : outcome (option Z) :=
  let ann := u64 (amp * 4) in
  t <- udiv (u128 (d * d)) (u64 (2 * x_new)) ;;
  c <- udiv (u128 (t * d)) (u64 (2 * ann)) ;;
  q <- udiv d ann ;;
  let b := u64 (x_new + q) in
  calc_y_loop NEWTON_ITERATIONS c b d d.

Definition simulate_swap (bal_in bal_out amount_in amp fee_bps : Z)
  : outcome (option Z) :=
  d <- calc_d bal_in bal_out amp ;;
  match d with
  | None => Ret None
  | Some d =>
      let new_bal_in := u64 (bal_in + amount_in) in
      new_bal_out <- calc_y new_bal_in d amp ;;
      match new_bal_out with
      | None => Ret None
      | Some new_bal_out =>
          let amount_out := u64 (bal_out - new_bal_out) in
          let amount_out :=
            u64 (amount_out - u64 (amount_out * fee_bps) / 10000) in
          Ret (Some amount_out)
      end
  end.

(** The loop of the initial deposit:
    [next = (lp + product / lp) / 2; if (next >= lp) break; lp = next;]
    with [lp] and [next] of 64 bits and [product] of 128 bits. *)
Fixpoint initial_lp_loop (iters : nat) (product lp : Z) : outcome Z :=
  match iters with
  | O => Ret lp
  | S iters' =>
      q <- udiv product lp ;;
      let next := u64 (u128 (lp + q) / 2) in
      if next >=? lp then Ret lp
      else initial_lp_loop iters' product next
  end.

Definition calc_lp_tokens (amt0 amt1 bal0 bal1 lp_supply amp : Z)
  : outcome (option Z) :=
  if lp_supply =? 0 then
    let product := u128 (amt0 * amt1) in
    lp <- initial_lp_loop 64 product 1 ;; Ret (Some lp)
  else
    d0 <- calc_d bal0 bal1 amp ;;
    d1 <- calc_d (u64 (bal0 + amt0)) (u64 (bal1 + amt1)) amp ;;
    match d0, d1 with
    | Some d0, Some d1 =>
        if d0 =? 0 then Ret None
        else
          lp <- udiv (u128 (lp_supply * u64 (d1 - d0))) d0 ;;
          Ret (Some (u64 lp))
    | _, _ => Ret None
    end.

(** *** Oracle and lottery helpers *)

Record TwapResult : Type := mkTwapResult {
  price : Z;        (* uint32_t *)
  samples : Z;      (* uint16_t *)
  confidence : Z    (* uint16_t *)
}.

(** [TwapResult::decode]. *)
Definition decode (encoded : Z) : TwapResult :=
  mkTwapResult
    (wrap 32 (Z.land encoded 0xFFFFFFFF))
    (wrap 16 (Z.land (Z.shiftr encoded 32) 0xFFFF))
    (wrap 16 (Z.land (Z.shiftr encoded 48) 0xFFFF)).

(** The fields of [struct LotteryEntry] that [is_winner] reads. *)
Record LotteryEntry : Type := mkLotteryEntry {
  ticket_start : Z;
  ticket_count : Z
}.

Definition is_winner (e : LotteryEntry) (winning_ticket : Z) : bool :=
  (winning_ticket >=? ticket_start e)
  && (winning_ticket <? u64 (ticket_start e + ticket_count e)).

(** [struct Candle]: [open] is a [uint32_t], the deltas are 16 bits wide. *)
Record Candle : Type := mkCandle {
  open : Z;
  high_d : Z;
  low_d : Z;
  close_d : Z;
  volume : Z
}.

Definition high (c : Candle) : Z := wrap 32 (open c + high_d c).
Definition low (c : Candle) : Z := wrap 32 (open c - low_d c).

(** *** Base58 *)

Definition ALPHABET : string :=
  "123456789ABCDEFGHJKLMNPQRSTUVWXYZabcdefghijkmnopqrstuvwxyz"%string.

(** The loop [for (auto& d : digits)] of [base58_encode], with the
    [uint32_t carry]; the result is the new digits and the carry left. *)
Fixpoint b58_carry_loop (digits : list Z) (carry : Z) : list Z * Z :=
  match digits with
  | [] => ([], carry)
  | d :: rest =>
      let carry := wrap 32 (carry + wrap 32 (Z.shiftl d 8)) in
      let d := wrap 8 (carry mod 58) in
      let carry := carry / 58 in
      let (rest, carry) := b58_carry_loop rest carry in
      (d :: rest, carry)
  end.

(** The loop [while (carry)]: a 32-bit carry is zero after six divisions by
    58, which is the fuel of the model. *)
Fixpoint b58_push_loop (fuel : nat) (digits : list Z) (carry : Z) : list Z :=
  match fuel with
  | O => digits
  | S fuel' =>
      if carry =? 0 then digits
      else b58_push_loop fuel' (digits ++ [wrap 8 (carry mod 58)]) (carry / 58)
  end.

(** The body of [for (uint8_t byte : key)]. *)
Definition b58_byte (digits : list Z) (byte : Z) : list Z :=
  let (digits, carry) := b58_carry_loop digits byte in
  b58_push_loop 6 digits carry.

(** The loop of the leading zeros: [if (b != 0) break; push_back(0);]. *)
Fixpoint b58_leading_zeros (key : list Z) (digits : list Z) : list Z :=
  match key with
  | [] => digits
  | b :: rest =>
      if b =? 0 then b58_leading_zeros rest (digits ++ [0]) else digits
  end.

(** The vector [digits] when the string is built. *)
Definition base58_digits (key : list Z) : list Z :=
  let digits := [0] in
  let digits := fold_left b58_byte key digits in
  b58_leading_zeros key digits.

Definition alphabet_char (d : Z) : ascii :=
  match String.get (Z.to_nat d) ALPHABET with
  | Some c => c
  | None => Ascii.zero
  end.

(** [key] is the array of the 32 bytes of a [Pubkey]. *)
Definition base58_encode (key : list Z) : string :=
  string_of_list_ascii (map alphabet_char (rev (base58_digits key))).

(** *** Instruction builder *)

Definition SWAP : Z := 0x82c69e91e17587c8.
Definition ADDLIQN : Z := 0xe3f7a2c8d1b9e4f6.

(** The vector [data_] is a list of bytes; every writer returns the vector
    after its [push_back]s. *)
Definition write_u8 (v : Z) (data_ : list Z) : list Z := data_ ++ [v].

(** [for (int i = 0; i < 8; i++) { push_back(uint8_t(v & 0xFF)); v >>= 8; }] *)
Fixpoint write_u64_loop (iters : nat) (v : Z) (data_ : list Z) : list Z :=
  match iters with
  | O => data_
  | S iters' =>
      write_u64_loop iters' (u64 (Z.shiftr v 8))
        (data_ ++ [wrap 8 (Z.land v 0xFF)])
  end.

Definition write_u64 (v : Z) (data_ : list Z) : list Z :=
  write_u64_loop 8 v data_.

Definition write_i64 (v : Z) (data_ : list Z) : list Z :=
  write_u64 (u64 v) data_.

Definition swap (from to amount_in min_out deadline : Z) : list Z :=
  let b := [] in
  let b := write_u64 SWAP b in
  let b := write_u8 from b in
  let b := write_u8 to b in
  let b := write_u64 amount_in b in
  let b := write_u64 min_out b in
  let b := write_i64 deadline b in
  b.

(** [for (auto amt : amounts) b.write_u64(amt);] *)
Fixpoint write_amounts (amounts : list Z) (data_ : list Z) : list Z :=
  match amounts with
  | [] => data_
  | amt :: rest => write_amounts rest (write_u64 amt data_)
  end.

Definition addliqn (amounts : list Z) (min_lp : Z) : list Z :=
  let b := [] in
  let b := write_u64 ADDLIQN b in
  let b := write_amounts amounts b in
  let b := write_u64 min_lp b in
  b.

End StableswapHpp.

(** ** types.hpp *)

Module TypesHpp.

Record Candle : Type := mkCandle {
  open : Z;       (* uint32_t *)
  high_d : Z;     (* uint16_t *)
  low_d : Z;      (* uint16_t *)
  close_d : Z;    (* int16_t *)
  volume : Z      (* uint16_t *)
}.

Definition high (c : Candle) : Z := wrap 32 (open c + high_d c).

Definition low (c : Candle) : Z :=
  if open c >? low_d c then wrap 32 (open c - low_d c) else 0.

Definition actual_volume (c : Candle) : Z := u64 (u64 (volume c) * 1000000000).

End TypesHpp.

(** ** Notions used to state properties *)

(** Balances that the inner loop of [calc_d_n] can divide by. *)
Definition divisible_balance (n_tokens b : Z) : Prop :=
  b = 0 \/ u64 (n_tokens * b) <> 0.

(** The value of a sequence of bytes read as a little-endian number. *)
Definition le_value (bytes : list Z) : Z :=
  fold_right (fun b acc => b + 256 * acc) 0 bytes.

(** The [n] low bytes of [v], least significant first. *)
Fixpoint le_bytes (n : nat) (v : Z) : list Z :=
  match n with
  | O => []
  | S n' => v mod 256 :: le_bytes n' (v / 256)
  end.

Definition is_byte (b : Z) : Prop := 0 <= b <= 255.

(** The value of a sequence of bytes read as a big-endian number. *)
Definition be_value (bytes : list Z) : Z :=
  fold_left (fun acc b => acc * 256 + b) bytes 0.

(** The value of base-58 digits, least significant first. *)
Definition value58 (digits : list Z) : Z :=
  fold_right (fun d acc => d + 58 * acc) 0 digits.

Definition is_digit58 (d : Z) : Prop := 0 <= d < 58.

(** The number of zero bytes at the head of a key. *)
Fixpoint leading_zero_bytes (key : list Z) : nat :=
  match key with
  | [] => O
  | b :: rest => if b =? 0 then S (leading_zero_bytes rest) else O
  end.

(** The position of a character in the alphabet, 58 when it is absent. *)
Fixpoint index_in (c : ascii) (s : string) : Z :=
  match s with
  | EmptyString => 0
  | String c' s' => if Ascii.eqb c c' then 0 else 1 + index_in c s'
  end.

(** The number that a base-58 text denotes, most significant digit first. *)
Definition text_value58 (text : string) : Z :=
  fold_left (fun acc c => acc * 58 + index_in c StableswapHpp.ALPHABET)
    (list_ascii_of_string text) 0.

(** ** Evaluations *)

Example calc_d_balanced :
  MathHpp.calc_d 1000000000000 1000000000000 1000 = Ret (Some 2000000000000).
Proof. vm_compute. reflexivity. Qed.

Example isqrt_16 : MathHpp.isqrt 16 = Ret 4.
Proof. vm_compute. reflexivity. Qed.

Example simulate_swap_balanced :
  MathHpp.simulate_swap 1000000000000 1000000000000 10000000000 1000 30
  = Ret (Some 9969950171).
Proof. vm_compute. reflexivity. Qed.

(** ** Wrap-around *)

Lemma wrap_small (bits z : Z) : 0 <= z < 2 ^ bits -> wrap bits z = z.
Proof. intros H. unfold wrap. apply Z.mod_small. exact H. Qed.

Lemma u64_small (z : Z) : is_u64 z -> u64 z = z.
Proof.
  unfold is_u64, UINT64_MAX, u64. intros H. apply wrap_small. lia.
Qed.

Lemma u128_small (z : Z) : is_u128 z -> u128 z = z.
Proof.
  unfold is_u128, UINT128_MAX, u128. intros H. apply wrap_small. lia.
Qed.

Lemma u64_range (z : Z) : is_u64 (u64 z).
Proof.
  unfold is_u64, UINT64_MAX, u64, wrap.
  assert (H : 0 <= z mod 2 ^ 64 < 2 ^ 64) by (apply Z.mod_pos_bound; lia).
  lia.
Qed.

Lemma mul_u64_is_u128 (a b : Z) : is_u64 a -> is_u64 b -> is_u128 (a * b).
Proof.
  unfold is_u64, is_u128, UINT64_MAX, UINT128_MAX. intros Ha Hb.
  change (2 ^ 128) with (2 ^ 64 * 2 ^ 64). nia.
Qed.

Lemma mul128_exact (a b : Z) :
  is_u64 a -> is_u64 b -> MathHpp.mul128 a b = a * b.
Proof.
  intros Ha Hb. unfold MathHpp.mul128. apply u128_small.
  apply mul_u64_is_u128; assumption.
Qed.

(** ** The Newton iteration of the integer square root *)

Section NewtonSqrt.

Variable n : Z.
Hypothesis n_pos : 0 < n.

Let r := Z.sqrt n.

Lemma sqrt_bounds : 0 < r /\ r * r <= n < (r + 1) * (r + 1).
Proof.
  unfold r. pose proof (Z.sqrt_spec n ltac:(lia)) as H.
  pose proof (Z.sqrt_pos n) as Hp.
  replace (Z.succ (Z.sqrt n)) with (Z.sqrt n + 1) in H by lia.
  split; [apply Hp; lia | exact H].
Qed.

(** A Newton step never goes below the root. *)
Lemma newton_step_ge_sqrt (x : Z) : 0 < x -> r <= (x + n / x) / 2.
Proof.
  intros Hx. destruct sqrt_bounds as [Hr [Hlo Hhi]].
  apply Z.div_le_lower_bound; [lia|].
  pose proof (Z.mul_succ_div_gt n x Hx) as Hq.
  pose proof (Z.div_pos n x ltac:(lia) Hx) as Hq0.
  destruct (Z_lt_le_dec (x + n / x) (2 * r)) as [Hlt|Hge]; [|lia].
  exfalso.
  assert (H1 : n < x * (2 * r - x)) by nia.
  pose proof (Z.square_nonneg (r - x)) as Hsq.
  nia.
Qed.

(** Above the root, the quotient [n / x] is at most the root. *)
Lemma quotient_le_sqrt (x : Z) : r + 1 <= x -> n / x <= r.
Proof.
  intros Hx. destruct sqrt_bounds as [Hr [Hlo Hhi]].
  assert (H : n / x < r + 1).
  { apply Z.div_lt_upper_bound; [lia|]. nia. }
  lia.
Qed.

(** The sum formed by a step fits in the width of the variables. *)
Lemma newton_sum_bound (x : Z) : 0 < x <= n -> 0 <= x + n / x <= n + 1.
Proof.
  intros Hx.
  pose proof (Z.div_pos n x ltac:(lia) ltac:(lia)) as Hq0.
  pose proof (Z.mul_div_le n x ltac:(lia)) as Hq.
  split; [lia|].
  destruct (Z.eq_dec x 1) as [->|Hne].
  - rewrite Z.div_1_r. lia.
  - assert (Hq2 : n / x <= n - x + 1); [|lia].
    destruct (Z_lt_le_dec (n - x + 1) (n / x)) as [Hlt|Hge]; [|lia].
    exfalso. nia.
Qed.

Variable bits : Z.
Hypothesis bits_pos : 0 < bits.
Hypothesis n_fits : n + 1 < 2 ^ bits.

(** From any [x] at or above the root, with the candidate [y] computed from
    [x] by a Newton step, the loop returns the root within [fuel] iterations
    as soon as [x - r < 2 ^ fuel]. *)
Lemma isqrt_loop_converges (fuel : nat) : forall x,
  r <= x <= n ->
  x - r < 2 ^ Z.of_nat fuel ->
  MathHpp.isqrt_loop bits fuel n x (wrap bits (x + n / x) / 2) = Ret r.
Proof.
  induction fuel as [|fuel IH]; intros x Hx Hdist;
    destruct sqrt_bounds as [Hr [Hlo Hhi]];
    pose proof (newton_sum_bound x ltac:(lia)) as Hsum;
    rewrite (wrap_small bits (x + n / x)) by lia;
    pose proof (newton_step_ge_sqrt x ltac:(lia)) as Hge.
  - (* x - r < 1, hence x = r and the loop exits at once *)
    change (2 ^ Z.of_nat 0) with 1 in Hdist.
    assert (x = r) by lia. subst x.
    simpl. destruct (Z.ltb_spec ((r + n / r) / 2) r); [lia|reflexivity].
  - cbn [MathHpp.isqrt_loop].
    destruct (Z.ltb_spec ((x + n / x) / 2) x) as [Hlt|Hnlt].
    + (* the loop continues with x := y *)
      set (y := (x + n / x) / 2) in *.
      assert (Hrx : r + 1 <= x) by lia.
      pose proof (quotient_le_sqrt x Hrx) as Hq.
      unfold udiv. destruct (Z.eqb_spec y 0) as [Hy0|Hy0]; [lia|].
      cbn [bind]. apply IH; [lia|].
      rewrite Nat2Z.inj_succ, Z.pow_succ_r in Hdist by lia.
      assert (Hy : y <= (x + r) / 2).
      { unfold y. apply Z.div_le_mono; lia. }
      assert (Hh : (x + r) / 2 - r < 2 ^ Z.of_nat fuel).
      { replace (x + r) with ((x - r) + r * 2) by lia.
        rewrite Z.div_add by lia.
        assert ((x - r) / 2 < 2 ^ Z.of_nat fuel);
          [apply Z.div_lt_upper_bound; lia | lia]. }
      lia.
    + (* the loop exits: x is the root *)
      destruct (Z_le_gt_dec x r) as [Hle|Hgt]; [f_equal; lia|].
      exfalso.
      pose proof (quotient_le_sqrt x ltac:(lia)) as Hq.
      assert ((x + n / x) / 2 < x); [|lia].
      apply Z.div_lt_upper_bound; lia.
Qed.

(** The loop as the two functions enter it: [x = n], [y = (n + 1) / 2]. *)
Lemma isqrt_loop_from_n :
  n < 2 ^ Z.of_nat MathHpp.ISQRT_FUEL ->
  MathHpp.isqrt_loop bits MathHpp.ISQRT_FUEL n n (wrap bits (n + 1) / 2) = Ret r.
Proof.
  intros Hfuel. destruct sqrt_bounds as [Hr [Hlo Hhi]].
  replace (n + 1) with (n + n / n) by (rewrite Z.div_same; lia).
  apply isqrt_loop_converges; [|lia].
  split; [nia|lia].
Qed.

End NewtonSqrt.

(** [isqrt] is the integer square root below [UINT64_MAX]. *)
Lemma isqrt_correct (n : Z) :
  0 <= n < UINT64_MAX -> MathHpp.isqrt n = Ret (Z.sqrt n).
Proof.
  unfold UINT64_MAX. intros Hn. unfold MathHpp.isqrt.
  destruct (Z.eqb_spec n 0) as [->|Hn0]; [reflexivity|].
  destruct (Z.leb_spec n 3) as [Hn3|Hn3].
  - assert (Hc : n = 1 \/ n = 2 \/ n = 3) by lia.
    destruct Hc as [->|[->| ->]]; reflexivity.
  - unfold u64. apply isqrt_loop_from_n; try lia.
    change (Z.of_nat MathHpp.ISQRT_FUEL) with 130.
    assert (2 ^ 64 < 2 ^ 130) by (apply Z.pow_lt_mono_r; lia). lia.
Qed.

(** [isqrt128] is the integer square root below [UINT128_MAX]. *)
Lemma isqrt128_correct (n : Z) :
  0 <= n < UINT128_MAX -> MathHpp.isqrt128 n = Ret (Z.sqrt n).
Proof.
  unfold UINT128_MAX. intros Hn. unfold MathHpp.isqrt128.
  destruct (Z.eqb_spec n 0) as [->|Hn0]; [reflexivity|].
  destruct (Z.leb_spec n 3) as [Hn3|Hn3].
  - assert (Hc : n = 1 \/ n = 2 \/ n = 3) by lia.
    destruct Hc as [->|[->| ->]]; reflexivity.
  - unfold u128. rewrite isqrt_loop_from_n; try lia.
    + cbn [bind]. f_equal. apply u64_small. unfold is_u64, UINT64_MAX.
      pose proof (Z.sqrt_nonneg n) as H0.
      assert (Z.sqrt n < 2 ^ 64); [|lia].
      apply Z.sqrt_lt_square; [lia|lia|].
      change (2 ^ 64 * 2 ^ 64) with (2 ^ 128). lia.
    + change (Z.of_nat MathHpp.ISQRT_FUEL) with 130.
      assert (2 ^ 128 < 2 ^ 130) by (apply Z.pow_lt_mono_r; lia). lia.
Qed.

(** ** Integer square roots at the top of their range *)

(** C8: [isqrt] and [isqrt128] do not return the integer square root of
    every input of their type: at the largest value, [x + 1] wraps to zero,
    the loop sets [x] to zero and [n / x] divides by zero. *)
Theorem isqrt_max_divides_by_zero :
  MathHpp.isqrt UINT64_MAX = DivByZero /\
  MathHpp.isqrt128 UINT128_MAX = DivByZero.
Proof. split; vm_compute; reflexivity. Qed.

(** X24: for every input below [UINT64_MAX], [isqrt] returns the integer
    square root, the largest [r] with [r * r <= n]; its loop ends within the
    fuel of the model. *)
Lemma isqrt_largest_root (n : Z) :
  0 <= n < UINT64_MAX ->
  exists r, MathHpp.isqrt n = Ret r /\
            r * r <= n < (r + 1) * (r + 1).
Proof.
  intros Hn. exists (Z.sqrt n). split; [apply isqrt_correct; exact Hn|].
  pose proof (Z.sqrt_spec n ltac:(lia)) as H.
  replace (Z.succ (Z.sqrt n)) with (Z.sqrt n + 1) in H by lia. exact H.
Qed.

Lemma isqrt_small_values :
  MathHpp.isqrt 0 = Ret 0 /\ MathHpp.isqrt 1 = Ret 1 /\
  MathHpp.isqrt 2 = Ret 1 /\ MathHpp.isqrt 3 = Ret 1 /\
  MathHpp.isqrt128 0 = Ret 0 /\ MathHpp.isqrt128 1 = Ret 1 /\
  MathHpp.isqrt128 2 = Ret 1 /\ MathHpp.isqrt128 3 = Ret 1.
Proof. repeat split; reflexivity. Qed.

(** The fuel of the model is never exhausted on a 64-bit input. *)
Lemma isqrt_fuel_suffices (n : Z) : is_u64 n -> MathHpp.isqrt n <> OutOfFuel.
Proof.
  unfold is_u64. intros Hn.
  destruct (Z.eq_dec n UINT64_MAX) as [->|Hne].
  - vm_compute. discriminate.
  - rewrite isqrt_correct by lia. discriminate.
Qed.

Lemma isqrt128_fuel_suffices (n : Z) :
  is_u128 n -> MathHpp.isqrt128 n <> OutOfFuel.
Proof.
  unfold is_u128. intros Hn.
  destruct (Z.eq_dec n UINT128_MAX) as [->|Hne].
  - vm_compute. discriminate.
  - rewrite isqrt128_correct by lia. discriminate.
Qed.

(** ** Initial deposit *)

(** In math.hpp the initial deposit mints the integer square root of the
    product of the amounts. *)
Lemma calc_lp_tokens_initial (amt0 amt1 bal0 bal1 amp : Z) :
  is_u64 amt0 -> is_u64 amt1 ->
  MathHpp.calc_lp_tokens amt0 amt1 bal0 bal1 0 amp
  = Ret (Some (Z.sqrt (amt0 * amt1))).
Proof.
  intros H0 H1. unfold MathHpp.calc_lp_tokens, MathHpp.calc_initial_lp.
  cbn [Z.eqb]. rewrite mul128_exact by assumption.
  rewrite isqrt128_correct; [reflexivity|].
  unfold is_u64, UINT64_MAX, UINT128_MAX in *.
  change (2 ^ 128) with (2 ^ 64 * 2 ^ 64). nia.
Qed.

Example calc_lp_tokens_initial_scenario :
  MathHpp.calc_lp_tokens 100000000 400000000 0 0 0 100 = Ret (Some 200000000).
Proof. vm_compute. reflexivity. Qed.

(** C2: the copy of [calc_lp_tokens] in stableswap.hpp does not mint the
    integer square root on an empty pool: its loop starts from [lp = 1] and
    leaves as soon as [next >= lp], so the deposit (100_000_000, 400_000_000)
    mints 1, not 200_000_000. *)
Theorem stableswap_calc_lp_tokens_initial_mints_one :
  forall bal0 bal1 amp,
  StableswapHpp.calc_lp_tokens 100000000 400000000 bal0 bal1 0 amp
  = Ret (Some 1).
Proof. intros. vm_compute. reflexivity. Qed.

(** The same loop divides by zero when the product of the amounts is zero. *)
Lemma stableswap_calc_lp_tokens_initial_zero_amount :
  forall bal0 bal1 amp,
  StableswapHpp.calc_lp_tokens 0 400000000 bal0 bal1 0 amp = DivByZero.
Proof. intros. vm_compute. reflexivity. Qed.

(** ** calc_d on a single-sided pool *)

Lemma udiv_zero (n : Z) : udiv n 0 = DivByZero.
Proof. reflexivity. Qed.

Lemma udiv_cases (n d : Z) :
  udiv n d = DivByZero \/ exists q, udiv n d = Ret q.
Proof.
  unfold udiv. destruct (d =? 0); [left; reflexivity | right; eauto].
Qed.

Lemma u64_double_zero : u64 (2 * 0) = 0.
Proof. reflexivity. Qed.

(** An iteration of either loop stops at its first division by zero. *)
Lemma calc_d_loop_zero_x (k : nat) (y0 s0 ann0 d0 : Z) :
  MathHpp.calc_d_loop (S k) 0 y0 s0 ann0 d0 = DivByZero /\
  StableswapHpp.calc_d_loop (S k) 0 y0 s0 ann0 d0 = DivByZero.
Proof.
  cbn [MathHpp.calc_d_loop StableswapHpp.calc_d_loop].
  rewrite u64_double_zero, !udiv_zero. split; reflexivity.
Qed.

Lemma calc_d_loop_zero_y (k : nat) (x0 s0 ann0 d0 : Z) :
  MathHpp.calc_d_loop (S k) x0 0 s0 ann0 d0 = DivByZero /\
  StableswapHpp.calc_d_loop (S k) x0 0 s0 ann0 d0 = DivByZero.
Proof.
  cbn [MathHpp.calc_d_loop StableswapHpp.calc_d_loop].
  rewrite u64_double_zero. split.
  - destruct (udiv_cases (MathHpp.mul128 d0 d0) (u64 (2 * x0)))
      as [->|[q ->]]; cbn [bind]; [|rewrite udiv_zero]; reflexivity.
  - destruct (udiv_cases (u128 (d0 * d0)) (u64 (2 * x0)))
      as [->|[q ->]]; cbn [bind]; [|rewrite udiv_zero]; reflexivity.
Qed.

(** C1: with exactly one balance zero, [calc_d] does not return a failure:
    the first iteration divides by [2 * x] or by [2 * y], which is zero, in
    both copies of the function and for every amp. *)
Theorem calc_d_single_sided_divides_by_zero (x y amp : Z) :
  is_u64 x -> is_u64 y ->
  (x = 0 /\ 0 < y) \/ (0 < x /\ y = 0) ->
  MathHpp.calc_d x y amp = DivByZero /\
  StableswapHpp.calc_d x y amp = DivByZero.
Proof.
  intros Hx Hy Hone.
  assert (Hs : u64 (x + y) <> 0).
  { rewrite u64_small; [lia|]. unfold is_u64 in *. lia. }
  unfold MathHpp.calc_d, StableswapHpp.calc_d.
  destruct (Z.eqb_spec (u64 (x + y)) 0) as [E|_]; [contradiction|].
  change NEWTON_ITERATIONS with (S 254).
  destruct Hone as [[-> _]|[_ ->]].
  - apply calc_d_loop_zero_x.
  - apply calc_d_loop_zero_y.
Qed.

Lemma calc_d_single_sided_witness :
  MathHpp.calc_d 0 1000000 100 = DivByZero /\
  StableswapHpp.calc_d 0 1000000 100 = DivByZero.
Proof.
  apply (calc_d_single_sided_divides_by_zero 0 1000000 100).
  - unfold is_u64, UINT64_MAX. lia.
  - unfold is_u64, UINT64_MAX. lia.
  - left. lia.
Defined.

(** ** The two copies of calc_d *)

(** C9: the two copies of [calc_d] are not extensionally equal.  On the
    balanced pool (10^14, 10^14) with amp 100000 the product [(ann - 1) * d]
    exceeds 64 bits: math.hpp multiplies in 128 bits and converges to the sum
    of the balances, stableswap.hpp multiplies in 64 bits and runs out of
    iterations. *)
Theorem calc_d_copies_differ :
  MathHpp.calc_d 100000000000000 100000000000000 100000
  = Ret (Some 200000000000000) /\
  StableswapHpp.calc_d 100000000000000 100000000000000 100000 = Ret None.
Proof. split; vm_compute; reflexivity. Qed.

(** Where math.hpp guards the denominator, stableswap.hpp divides. *)
Lemma calc_d_copies_differ_zero_denominator :
  MathHpp.calc_d 1 1 0 = Ret None /\ StableswapHpp.calc_d 1 1 0 = DivByZero.
Proof. split; vm_compute; reflexivity. Qed.

(** ** Wrapping sum of the balances *)

(** C10: the sum of the balances wraps at 64 bits.  Two nonzero balances whose
    sum is a multiple of 2^64 give the result 0 of the empty pool, and a sum above
    [UINT64_MAX] enters the Newton loop as the wrapped sum, in both copies. *)
Theorem calc_d_sum_wraps (x y amp : Z) :
  is_u64 x -> is_u64 y ->
  (0 < x -> 0 < y -> (x + y) mod 2 ^ 64 = 0 ->
   MathHpp.calc_d x y amp = Ret (Some 0) /\
   StableswapHpp.calc_d x y amp = Ret (Some 0)) /\
  (UINT64_MAX < x + y -> (x + y) mod 2 ^ 64 <> 0 ->
   let s := x + y - 2 ^ 64 in
   MathHpp.calc_d x y amp
   = MathHpp.calc_d_loop NEWTON_ITERATIONS x y s (u64 (amp * 4)) s /\
   StableswapHpp.calc_d x y amp
   = StableswapHpp.calc_d_loop NEWTON_ITERATIONS x y s (u64 (amp * 4)) s).
Proof.
  intros Hx Hy. split.
  - intros _ _ Hz. unfold MathHpp.calc_d, StableswapHpp.calc_d, u64, wrap.
    rewrite Hz. split; reflexivity.
  - intros Hbig Hnz s.
    assert (Hs : u64 (x + y) = s).
    { unfold u64, wrap, s. unfold is_u64, UINT64_MAX in *.
      symmetry. apply Z.mod_unique with (q := 1); lia. }
    unfold MathHpp.calc_d, StableswapHpp.calc_d. rewrite Hs.
    destruct (Z.eqb_spec s 0) as [E|_].
    + exfalso. apply Hnz. fold (wrap 64 (x + y)). fold (u64 (x + y)).
      rewrite Hs. exact E.
    + split; reflexivity.
Qed.

Lemma calc_d_sum_wraps_witness :
  (MathHpp.calc_d (2 ^ 63) (2 ^ 63) 100 = Ret (Some 0) /\
   StableswapHpp.calc_d (2 ^ 63) (2 ^ 63) 100 = Ret (Some 0)) /\
  (MathHpp.calc_d (2 ^ 63) (2 ^ 63 + 10) 100
   = MathHpp.calc_d_loop NEWTON_ITERATIONS (2 ^ 63) (2 ^ 63 + 10) 10 400 10 /\
   StableswapHpp.calc_d (2 ^ 63) (2 ^ 63 + 10) 100
   = StableswapHpp.calc_d_loop NEWTON_ITERATIONS (2 ^ 63) (2 ^ 63 + 10) 10 400 10).
Proof.
  split.
  - apply (calc_d_sum_wraps (2 ^ 63) (2 ^ 63) 100).
    + unfold is_u64, UINT64_MAX. lia.
    + unfold is_u64, UINT64_MAX. lia.
    + lia.
    + lia.
    + reflexivity.
  - apply (calc_d_sum_wraps (2 ^ 63) (2 ^ 63 + 10) 100).
    + unfold is_u64, UINT64_MAX. lia.
    + unfold is_u64, UINT64_MAX. lia.
    + unfold UINT64_MAX. lia.
    + vm_compute. discriminate.
Defined.

(** A pool of about 1.8 * 10^19 units is given the invariant 10. *)
Example calc_d_wrapped_sum :
  MathHpp.calc_d UINT64_MAX 11 100 = Ret (Some 10) /\
  StableswapHpp.calc_d UINT64_MAX 11 100 = Ret (Some 10).
Proof. split; vm_compute; reflexivity. Qed.

(** ** Withdrawal *)

(** C7: burning the whole supply pays out exactly the two balances, and a
    supply of zero fails. *)
Theorem calc_withdraw_whole_supply (lp_amount bal0 bal1 lp_supply : Z) :
  is_u64 bal0 -> is_u64 bal1 -> is_u64 lp_supply ->
  (0 < lp_supply ->
   MathHpp.calc_withdraw lp_supply bal0 bal1 lp_supply
   = Some (MathHpp.mkWithdrawResult bal0 bal1)) /\
  (lp_supply = 0 ->
   MathHpp.calc_withdraw lp_amount bal0 bal1 lp_supply = None).
Proof.
  intros H0 H1 Hs. split.
  - intros Hpos. unfold MathHpp.calc_withdraw, MathHpp.div128.
    destruct (Z.eqb_spec lp_supply 0) as [E|_]; [lia|].
    rewrite !mul128_exact by assumption.
    rewrite !Z.div_mul by lia.
    rewrite !u64_small by assumption. reflexivity.
  - intros ->. reflexivity.
Qed.

Lemma calc_withdraw_whole_supply_witness :
  MathHpp.calc_withdraw 500 1000000 2000000 500
  = Some (MathHpp.mkWithdrawResult 1000000 2000000) /\
  MathHpp.calc_withdraw 7 1000000 2000000 0 = None.
Proof.
  split.
  - apply (calc_withdraw_whole_supply 500 1000000 2000000 500);
      unfold is_u64, UINT64_MAX; lia.
  - apply (calc_withdraw_whole_supply 7 1000000 2000000 0);
      unfold is_u64, UINT64_MAX; lia.
Defined.

(** ** Ranges of the solver results *)

Lemma bind_ret_inv {A B : Type} (m : outcome A) (k : A -> outcome B) (b : B) :
  bind m k = Ret b -> exists a, m = Ret a /\ k a = Ret b.
Proof. destruct m; cbn [bind]; intros H; try discriminate. eauto. Qed.

(** The invariant solver returns 64-bit values. *)
Lemma calc_d_loop_range (iters : nat) : forall x y s ann d v,
  MathHpp.calc_d_loop iters x y s ann d = Ret (Some v) -> is_u64 v.
Proof.
  induction iters as [|iters IH]; intros x y s ann d v H;
    cbn [MathHpp.calc_d_loop] in H.
  - discriminate.
  - apply bind_ret_inv in H. destruct H as [t [_ H]].
    apply bind_ret_inv in H. destruct H as [d_p [_ H]].
    cbv zeta in H.
    destruct (_ =? 0) in H; [discriminate|].
    destruct (_ >? _) in H; destruct (_ <=? 1) in H;
      try (injection H as <-; apply u64_range); eapply IH; exact H.
Qed.

Lemma calc_d_range (x y amp v : Z) :
  MathHpp.calc_d x y amp = Ret (Some v) -> is_u64 v.
Proof.
  unfold MathHpp.calc_d. destruct (u64 (x + y) =? 0).
  - intros H. injection H as <-. unfold is_u64, UINT64_MAX. lia.
  - apply calc_d_loop_range.
Qed.

(** The output solver returns 64-bit values. *)
Lemma calc_y_loop_range (iters : nat) : forall c b d y v,
  MathHpp.calc_y_loop iters c b d y = Ret (Some v) -> is_u64 v.
Proof.
  induction iters as [|iters IH]; intros c b d y v H; cbn [MathHpp.calc_y_loop] in H.
  - discriminate.
  - destruct (_ =? 0) in H; [discriminate|].
    destruct (_ >? _) in H; destruct (_ <=? 1) in H;
      try (injection H as <-; apply u64_range); eapply IH; exact H.
Qed.

Lemma calc_y_range (x_new d amp v : Z) :
  MathHpp.calc_y x_new d amp = Ret (Some v) -> is_u64 v.
Proof.
  unfold MathHpp.calc_y. intros H.
  apply bind_ret_inv in H. destruct H as [t [_ H]].
  apply bind_ret_inv in H. destruct H as [c [_ H]].
  apply bind_ret_inv in H. destruct H as [q [_ H]].
  eapply calc_y_loop_range. exact H.
Qed.

(** ** Swap simulation *)

(** In math.hpp a new output balance at or above the old one gives the
    result 0, and below it the difference is taken without wrap-around. *)
Lemma simulate_swap_clamp (bal_in bal_out amount_in amp fee_bps d new_bal_out : Z) :
  MathHpp.calc_d bal_in bal_out amp = Ret (Some d) ->
  MathHpp.calc_y (u64 (bal_in + amount_in)) d amp = Ret (Some new_bal_out) ->
  bal_out <= new_bal_out ->
  MathHpp.simulate_swap bal_in bal_out amount_in amp fee_bps = Ret (Some 0).
Proof.
  intros Hd Hy Hge. unfold MathHpp.simulate_swap.
  rewrite Hd. cbn [bind]. rewrite Hy. cbn [bind].
  destruct (Z.geb_spec new_bal_out bal_out); [reflexivity|lia].
Qed.

Lemma simulate_swap_gross (bal_in bal_out amount_in amp fee_bps d new_bal_out : Z) :
  is_u64 bal_out ->
  MathHpp.calc_d bal_in bal_out amp = Ret (Some d) ->
  MathHpp.calc_y (u64 (bal_in + amount_in)) d amp = Ret (Some new_bal_out) ->
  new_bal_out < bal_out ->
  let gross := bal_out - new_bal_out in
  is_u64 gross /\
  MathHpp.simulate_swap bal_in bal_out amount_in amp fee_bps
  = Ret (Some (u64 (gross - u64 (gross * fee_bps) / FEE_DENOMINATOR))).
Proof.
  intros Hb Hd Hy Hlt gross.
  assert (Hg : is_u64 gross).
  { apply calc_y_range in Hy. unfold gross, is_u64 in *. lia. }
  split; [exact Hg|]. unfold MathHpp.simulate_swap.
  rewrite Hd. cbn [bind]. rewrite Hy. cbn [bind].
  destruct (Z.geb_spec new_bal_out bal_out); [lia|].
  rewrite (u64_small (bal_out - new_bal_out)) by exact Hg. reflexivity.
Qed.

(** C3: the copy of [simulate_swap] in stableswap.hpp has no clamp.  On the
    pool (98499607, 151627295541345) at amp 100000, [calc_d] and [calc_y]
    succeed, the new output balance is above the old one and the result is
    the wrapped difference less its fee; math.hpp returns a small amount
    there because its [calc_d] differs.  With an input that wraps
    [bal_in + amount_in] the two copies of [calc_d] agree and math.hpp
    clamps to 0 where stableswap.hpp wraps. *)
Theorem stableswap_simulate_swap_wraps :
  (StableswapHpp.calc_d 98499607 151627295541345 100000
   = Ret (Some 149670941238447) /\
   StableswapHpp.calc_y (u64 (98499607 + 1)) 149670941238447 100000
   = Ret (Some 238770419102263) /\
   151627295541345 <= 238770419102263 /\
   StableswapHpp.simulate_swap 98499607 151627295541345 1 100000 30
   = Ret (Some 18444812517607990426)) /\
  (StableswapHpp.calc_d 100 100 100 = Ret (Some 200) /\
   StableswapHpp.calc_y (u64 (100 + (2 ^ 64 - 50))) 200 100 = Ret (Some 150) /\
   StableswapHpp.simulate_swap 100 100 (2 ^ 64 - 50) 100 30
   = Ret (Some 18444899399302180611) /\
   MathHpp.simulate_swap 100 100 (2 ^ 64 - 50) 100 30 = Ret (Some 0)).
Proof.
  split; [split; [|split; [|split]] | split; [|split; [|split]]];
    try (vm_compute; reflexivity).
  lia.
Qed.

(** Without wrap-around of [gross * fee_bps] a higher fee never pays more. *)
Lemma net_out_antitone (gross f1 f2 : Z) :
  is_u64 gross -> 0 <= f1 <= f2 -> f2 <= FEE_DENOMINATOR ->
  gross * f2 <= UINT64_MAX ->
  u64 (gross - u64 (gross * f2) / FEE_DENOMINATOR)
  <= u64 (gross - u64 (gross * f1) / FEE_DENOMINATOR).
Proof.
  unfold is_u64, UINT64_MAX, FEE_DENOMINATOR. intros Hg Hf Hf2 Hfit.
  assert (H1 : 0 <= gross * f1 <= gross * f2) by nia.
  rewrite (u64_small (gross * f1)) by (unfold is_u64, UINT64_MAX; lia).
  rewrite (u64_small (gross * f2)) by (unfold is_u64, UINT64_MAX; lia).
  assert (Hq : gross * f1 / 10000 <= gross * f2 / 10000)
    by (apply Z.div_le_mono; lia).
  assert (Hq0 : 0 <= gross * f1 / 10000) by (apply Z.div_pos; lia).
  assert (Hq2 : gross * f2 / 10000 <= gross)
    by (apply Z.div_le_upper_bound; nia).
  rewrite !u64_small by (unfold is_u64, UINT64_MAX; lia).
  lia.
Qed.

(** X29: as long as [bal_out * f2] fits in 64 bits, a higher fee (of at
    most 10000 basis points) never pays out more. *)
Lemma simulate_swap_fee_antitone_without_wrap
  (bal_in bal_out amount_in amp f1 f2 r1 r2 : Z) :
  is_u64 bal_out -> 0 <= f1 <= f2 -> f2 <= FEE_DENOMINATOR ->
  bal_out * f2 <= UINT64_MAX ->
  MathHpp.simulate_swap bal_in bal_out amount_in amp f1 = Ret (Some r1) ->
  MathHpp.simulate_swap bal_in bal_out amount_in amp f2 = Ret (Some r2) ->
  r2 <= r1.
Proof.
  intros Hb Hf Hf2 Hfit. unfold MathHpp.simulate_swap.
  destruct (MathHpp.calc_d bal_in bal_out amp) as [[d|]| | |];
    cbn [bind]; try discriminate.
  destruct (MathHpp.calc_y (u64 (bal_in + amount_in)) d amp)
    as [[nbo|]| | |] eqn:Hy; cbn [bind]; try discriminate.
  apply calc_y_range in Hy.
  destruct (Z.geb_spec nbo bal_out) as [Hge|Hlt].
  - intros H1 H2. injection H1 as <-. injection H2 as <-. lia.
  - intros H1 H2. injection H1 as <-. injection H2 as <-.
    unfold is_u64, UINT64_MAX in *.
    rewrite (u64_small (bal_out - nbo)) by (unfold is_u64, UINT64_MAX; lia).
    apply net_out_antitone; unfold is_u64, UINT64_MAX; try lia. nia.
Qed.

(** C6: the net output of [simulate_swap] is not antitone in the fee.  The
    product [amount_out * fee_bps] is taken in 64 bits; on the pool
    (10^17, 10^17) with amount_in 2 * 10^16 and amp 100 it fits at 900 basis
    points and wraps at 1000, so the higher fee pays out more. *)
Theorem simulate_swap_fee_not_monotone :
  MathHpp.simulate_swap 100000000000000000 100000000000000000
    20000000000000000 100 900 = Ret (Some 18181164263440108) /\
  MathHpp.simulate_swap 100000000000000000 100000000000000000
    20000000000000000 100 1000 = Ret (Some 19826045656927106) /\
  18181164263440108 < 19826045656927106.
Proof. split; [|split]; [vm_compute; reflexivity ..|lia]. Qed.

(** ** Incremental deposit *)

(** When both invariants are computed, a failure of either and a zero [D0]
    give no value. *)
Lemma calc_lp_tokens_fails (amt0 amt1 bal0 bal1 lp_supply amp : Z)
  (d0 d1 : option Z) :
  lp_supply <> 0 ->
  MathHpp.calc_d bal0 bal1 amp = Ret d0 ->
  MathHpp.calc_d (u64 (bal0 + amt0)) (u64 (bal1 + amt1)) amp = Ret d1 ->
  d0 = None \/ d1 = None \/ d0 = Some 0 ->
  MathHpp.calc_lp_tokens amt0 amt1 bal0 bal1 lp_supply amp = Ret None.
Proof.
  intros Hlp H0 H1 Hfail. unfold MathHpp.calc_lp_tokens.
  destruct (Z.eqb_spec lp_supply 0) as [E|_]; [contradiction|].
  rewrite H0, H1. cbn [bind].
  destruct Hfail as [->|[->| ->]].
  - reflexivity.
  - destruct d0; reflexivity.
  - destruct d1; reflexivity.
Qed.

(** When the invariant does not decrease, the amount minted is
    [lp_supply * (D1 - D0) / D0], cut to 64 bits. *)
Lemma calc_lp_tokens_incremental (amt0 amt1 bal0 bal1 lp_supply amp d0 d1 : Z) :
  is_u64 lp_supply -> lp_supply <> 0 ->
  MathHpp.calc_d bal0 bal1 amp = Ret (Some d0) ->
  MathHpp.calc_d (u64 (bal0 + amt0)) (u64 (bal1 + amt1)) amp = Ret (Some d1) ->
  d0 <> 0 -> d0 <= d1 ->
  MathHpp.calc_lp_tokens amt0 amt1 bal0 bal1 lp_supply amp
  = Ret (Some (u64 (lp_supply * (d1 - d0) / d0))).
Proof.
  intros Hlp Hnz H0 H1 Hd0 Hd. unfold MathHpp.calc_lp_tokens.
  destruct (Z.eqb_spec lp_supply 0) as [E|_]; [contradiction|].
  rewrite H0, H1. cbn [bind].
  apply calc_d_range in H0. apply calc_d_range in H1.
  destruct (Z.eqb_spec d0 0) as [E|_]; [contradiction|].
  unfold udiv. destruct (Z.eqb_spec d0 0) as [E|_]; [contradiction|].
  cbn [bind].
  assert (Hdiff : is_u64 (d1 - d0)) by (unfold is_u64 in *; lia).
  rewrite (u64_small (d1 - d0)) by exact Hdiff.
  rewrite mul128_exact by assumption. reflexivity.
Qed.

(** C4: [calc_lp_tokens] does not fail when the invariant after the deposit
    is below the one before it.  Adding (1, 0) to the pool (35, 1) at amp 1
    moves the computed invariant from 23 to 22; [D1 - D0] wraps to
    2^64 - 1 and the function returns a huge amount, in both copies. *)
Theorem calc_lp_tokens_wraps_on_decreasing_invariant :
  MathHpp.calc_d 35 1 1 = Ret (Some 23) /\
  MathHpp.calc_d (u64 (35 + 1)) (u64 (1 + 0)) 1 = Ret (Some 22) /\
  MathHpp.calc_lp_tokens 1 0 35 1 1000 1 = Ret (Some 8822355861339350729) /\
  StableswapHpp.calc_lp_tokens 1 0 35 1 1000 1
  = Ret (Some 8822355861339350729).
Proof. repeat split; vm_compute; reflexivity. Qed.

(** ** Amplification ramp *)

(** [Pool::get_amp] is [get_current_amp] on the fields of the pool. *)
Lemma get_amp_is_get_current_amp (p : StableswapHpp.Pool) (now : Z) :
  StableswapHpp.get_amp p now
  = MathHpp.get_current_amp (StableswapHpp.amp p) (StableswapHpp.target_amp p)
      (StableswapHpp.ramp_start p) (StableswapHpp.ramp_end p) now.
Proof. reflexivity. Qed.

(** On a zero-length window the start of the ramp already yields the
    target. *)
Lemma get_current_amp_zero_length_window :
  MathHpp.get_current_amp 100 200 1000 1000 1000 <> Ret 100.
Proof. vm_compute. discriminate. Qed.

(** The two subtractions are signed: a window wider than [INT64_MAX] is
    outside the defined behaviour of the function. *)
Lemma get_current_amp_wide_window :
  MathHpp.get_current_amp 100 200 INT64_MIN INT64_MAX 0 = SignedOverflow.
Proof. vm_compute. reflexivity. Qed.

(** C5 (amended): at [now = ramp_start] of a window with
    [ramp_start < ramp_end] the result is the original amp, and on a
    zero-length or inverted window it is the target; at [now = ramp_end] the
    result is the target for every window; and for every [now] the function
    returns a value when [ramp_end - ramp_start] is at most [INT64_MAX]. *)
Theorem get_current_amp_boundaries (amp target_amp ramp_start ramp_end now : Z) :
  is_i64 ramp_start -> is_i64 ramp_end -> is_i64 now ->
  (ramp_start < ramp_end ->
   MathHpp.get_current_amp amp target_amp ramp_start ramp_end ramp_start
   = Ret amp) /\
  (ramp_end <= ramp_start ->
   MathHpp.get_current_amp amp target_amp ramp_start ramp_end ramp_start
   = Ret target_amp) /\
  MathHpp.get_current_amp amp target_amp ramp_start ramp_end ramp_end
  = Ret target_amp /\
  (ramp_end - ramp_start <= INT64_MAX ->
   exists v, MathHpp.get_current_amp amp target_amp ramp_start ramp_end now
             = Ret v).
Proof.
  intros Hs He Hn. unfold MathHpp.get_current_amp.
  split; [|split; [|split]].
  - intros Hlt.
    destruct (Z.geb_spec ramp_start ramp_end); [lia|].
    destruct (Z.eqb_spec ramp_end ramp_start); [lia|]. cbn [orb].
    destruct (Z.leb_spec ramp_start ramp_start); [reflexivity|lia].
  - intros Hle.
    destruct (Z.geb_spec ramp_start ramp_end); [reflexivity|lia].
  - destruct (Z.geb_spec ramp_end ramp_end); [reflexivity|lia].
  - intros Hfit.
    destruct (Z.geb_spec now ramp_end) as [Hge|Hlt]; [eexists; reflexivity|].
    destruct (Z.eqb_spec ramp_end ramp_start) as [Heq|Hne];
      [eexists; reflexivity|]. cbn [orb].
    destruct (Z.leb_spec now ramp_start) as [Hle|Hgt]; [eexists; reflexivity|].
    unfold is_i64, INT64_MIN, INT64_MAX in *.
    unfold sub_i64, INT64_MIN, INT64_MAX.
    destruct (Z.leb_spec (- 2 ^ 63) (now - ramp_start)); [|lia].
    destruct (Z.leb_spec (now - ramp_start) (2 ^ 63 - 1)); [|lia].
    destruct (Z.leb_spec (- 2 ^ 63) (ramp_end - ramp_start)); [|lia].
    destruct (Z.leb_spec (ramp_end - ramp_start) (2 ^ 63 - 1)); [|lia].
    cbn [andb bind].
    assert (Hd : u64 (ramp_end - ramp_start) <> 0).
    { rewrite u64_small; [lia|]. unfold is_u64, UINT64_MAX. lia. }
    unfold udiv.
    destruct (Z.eqb_spec (u64 (ramp_end - ramp_start)) 0); [contradiction|].
    destruct (target_amp >? amp); cbn [bind]; eexists; reflexivity.
Qed.

Lemma get_current_amp_boundaries_witness :
  MathHpp.get_current_amp 100 200 1000 2000 1000 = Ret 100 /\
  MathHpp.get_current_amp 100 200 1000 1000 1000 = Ret 200 /\
  MathHpp.get_current_amp 100 200 1000 2000 2000 = Ret 200 /\
  exists v, MathHpp.get_current_amp 100 200 1000 2000 1500 = Ret v.
Proof.
  assert (Hi : forall z, -1000000 <= z <= 1000000 -> is_i64 z).
  { intros z Hz. unfold is_i64, INT64_MIN, INT64_MAX. lia. }
  split; [|split; [|split]].
  - apply (get_current_amp_boundaries 100 200 1000 2000 1500);
      try (apply Hi); lia.
  - apply (get_current_amp_boundaries 100 200 1000 1000 1000);
      try (apply Hi); lia.
  - apply (get_current_amp_boundaries 100 200 1000 2000 1500);
      try (apply Hi); lia.
  - apply (get_current_amp_boundaries 100 200 1000 2000 1500);
      try (apply Hi); lia.
Defined.

(** Inside the window the ramp is linear. *)
Example get_current_amp_midpoint :
  MathHpp.get_current_amp 100 200 1000 2000 1500 = Ret 150 /\
  MathHpp.get_current_amp 200 100 1000 2000 1500 = Ret 150.
Proof. split; vm_compute; reflexivity. Qed.

(** ** Undefined behaviour of the two-token solvers in math.hpp *)

Lemma udiv_nonzero (n d : Z) : d <> 0 -> udiv n d = Ret (n / d).
Proof.
  intros Hd. unfold udiv. destruct (Z.eqb_spec d 0); [contradiction|reflexivity].
Qed.

Lemma math_calc_d_loop_returns (x y s ann : Z) (iters : nat) : forall d,
  u64 (2 * x) <> 0 -> u64 (2 * y) <> 0 ->
  exists r, MathHpp.calc_d_loop iters x y s ann d = Ret r.
Proof.
  induction iters as [|iters IH]; intros d Hx Hy; cbn [MathHpp.calc_d_loop].
  - eauto.
  - rewrite (udiv_nonzero _ _ Hx). cbn [bind].
    rewrite (udiv_nonzero _ _ Hy). cbn [bind]. cbv zeta.
    destruct (_ =? 0); [eauto|].
    destruct (_ >? _); destruct (_ <=? 1); eauto.
Qed.

Lemma math_calc_d_loop_traps (x y s ann d : Z) (k : nat) :
  u64 (2 * x) = 0 \/ u64 (2 * y) = 0 ->
  MathHpp.calc_d_loop (S k) x y s ann d = DivByZero.
Proof.
  intros H. cbn [MathHpp.calc_d_loop].
  destruct (Z.eq_dec (u64 (2 * x)) 0) as [Hx|Hx].
  - rewrite Hx. reflexivity.
  - destruct H as [H|H]; [contradiction|].
    rewrite (udiv_nonzero _ _ Hx). cbn [bind]. rewrite H. reflexivity.
Qed.

Lemma math_calc_d_returns (x y amp : Z) :
  u64 (2 * x) <> 0 -> u64 (2 * y) <> 0 ->
  exists r, MathHpp.calc_d x y amp = Ret r.
Proof.
  intros Hx Hy. unfold MathHpp.calc_d.
  destruct (u64 (x + y) =? 0); [eauto|].
  apply math_calc_d_loop_returns; assumption.
Qed.

(** X1: [calc_d] of math.hpp divides by zero exactly when the wrapped sum of
    the balances is nonzero and [2 * x] or [2 * y] wraps to zero (a balance
    that is 0 or 2^63); in every other case it returns a value or
    [std::nullopt]. *)
Theorem math_calc_d_fault_iff (x y amp : Z) :
  (MathHpp.calc_d x y amp = DivByZero <->
   u64 (x + y) <> 0 /\ (u64 (2 * x) = 0 \/ u64 (2 * y) = 0)) /\
  (MathHpp.calc_d x y amp <> DivByZero ->
   exists r, MathHpp.calc_d x y amp = Ret r).
Proof.
  unfold MathHpp.calc_d.
  destruct (Z.eqb_spec (u64 (x + y)) 0) as [Hs|Hs].
  - split; [split|]; [discriminate | intros [H _]; contradiction | eauto].
  - change NEWTON_ITERATIONS with (S 254).
    destruct (Z.eq_dec (u64 (2 * x)) 0) as [Hx|Hx];
      [|destruct (Z.eq_dec (u64 (2 * y)) 0) as [Hy|Hy]].
    + rewrite math_calc_d_loop_traps by (left; exact Hx).
      split; [split; auto|]. intros H; contradiction.
    + rewrite math_calc_d_loop_traps by (right; exact Hy).
      split; [split; auto|]. intros H; contradiction.
    + destruct (math_calc_d_loop_returns x y (u64 (x + y)) (u64 (amp * 4))
                  (S 254) (u64 (x + y)) Hx Hy) as [r Hr].
      rewrite Hr. split; [split|]; [discriminate | | eauto].
      intros [_ [H|H]]; contradiction.
Qed.

Lemma math_calc_y_loop_returns (c b d : Z) (iters : nat) : forall y,
  exists r, MathHpp.calc_y_loop iters c b d y = Ret r.
Proof.
  induction iters as [|iters IH]; intros y; cbn [MathHpp.calc_y_loop].
  - eauto.
  - cbv zeta. destruct (_ =? 0); [eauto|].
    destruct (_ >? _); destruct (_ <=? 1); eauto.
Qed.

Lemma math_calc_y_returns (x_new d amp : Z) :
  u64 (2 * x_new) <> 0 -> u64 (2 * u64 (amp * 4)) <> 0 ->
  exists r, MathHpp.calc_y x_new d amp = Ret r.
Proof.
  intros Hx Ha. unfold MathHpp.calc_y.
  rewrite (udiv_nonzero _ _ Hx). cbn [bind].
  rewrite (udiv_nonzero _ _ Ha). cbn [bind].
  assert (Hann : u64 (amp * 4) <> 0).
  { intros E. apply Ha. rewrite E. reflexivity. }
  rewrite (udiv_nonzero _ _ Hann). cbn [bind]. cbv zeta.
  apply math_calc_y_loop_returns.
Qed.

(** X2: [calc_y] of math.hpp divides by zero exactly when [2 * x_new] or
    [2 * ann] wraps to zero; otherwise it returns a value or
    [std::nullopt]. *)
Theorem math_calc_y_fault_iff (x_new d amp : Z) :
  let ann := u64 (amp * 4) in
  (MathHpp.calc_y x_new d amp = DivByZero <->
   u64 (2 * x_new) = 0 \/ u64 (2 * ann) = 0) /\
  (MathHpp.calc_y x_new d amp <> DivByZero ->
   exists r, MathHpp.calc_y x_new d amp = Ret r).
Proof.
  intros ann. unfold MathHpp.calc_y. fold ann.
  destruct (Z.eq_dec (u64 (2 * x_new)) 0) as [Hx|Hx].
  { rewrite Hx. cbn [udiv Z.eqb bind].
    split; [split; auto|]. intros H; contradiction. }
  rewrite (udiv_nonzero _ _ Hx). cbn [bind].
  destruct (Z.eq_dec (u64 (2 * ann)) 0) as [Ha|Ha].
  { rewrite Ha. cbn [udiv Z.eqb bind].
    split; [split; auto|]. intros H; contradiction. }
  rewrite (udiv_nonzero _ _ Ha). cbn [bind].
  assert (Hann : ann <> 0).
  { intros E. apply Ha. rewrite E. reflexivity. }
  rewrite (udiv_nonzero _ _ Hann). cbn [bind]. cbv zeta.
  match goal with
  | |- context [MathHpp.calc_y_loop ?i ?c ?b ?d0 ?y] =>
      destruct (math_calc_y_loop_returns c b d0 i y) as [r Hr]
  end.
  change NEWTON_ITERATIONS with (S 254) in *. 
  rewrite Hr. split; [split|]; [discriminate | | eauto].
  intros [H|H]; contradiction.
Qed.

Lemma u64_double_nonzero (x : Z) : 0 < x < 2 ^ 63 -> u64 (2 * x) <> 0.
Proof.
  intros Hx. rewrite u64_small; [lia|]. unfold is_u64, UINT64_MAX. lia.
Qed.

Lemma check_amp_range (amp : Z) :
  MathHpp.check_amp amp = true -> 1 <= amp <= 100000.
Proof.
  unfold MathHpp.check_amp, MIN_AMP, MAX_AMP. intros H.
  apply andb_true_iff in H. destruct H as [H1 H2].
  apply Z.geb_le in H1. apply Z.leb_le in H2. lia.
Qed.

(** X3: with an amp that passes [check_amp], balances strictly between 0 and
    2^63 and an input that keeps [bal_in + amount_in] below 2^63,
    [simulate_swap] of math.hpp never divides by zero: it returns an amount
    or [std::nullopt]. *)
Theorem math_simulate_swap_returns (bal_in bal_out amount_in amp fee_bps : Z) :
  MathHpp.check_amp amp = true ->
  0 < bal_in < 2 ^ 63 -> 0 < bal_out < 2 ^ 63 ->
  0 <= amount_in -> bal_in + amount_in < 2 ^ 63 ->
  exists r, MathHpp.simulate_swap bal_in bal_out amount_in amp fee_bps = Ret r.
Proof.
  intros Hamp Hin Hout Ha Hsum. apply check_amp_range in Hamp.
  unfold MathHpp.simulate_swap.
  destruct (math_calc_d_returns bal_in bal_out amp) as [[d|] Hr];
    try (apply u64_double_nonzero; lia);
    rewrite Hr; cbn [bind]; [|eauto]. cbv zeta.
  destruct (math_calc_y_returns (u64 (bal_in + amount_in)) d amp)
    as [[y|] Hry].
  - rewrite (u64_small (bal_in + amount_in))
      by (unfold is_u64, UINT64_MAX; lia).
    apply u64_double_nonzero. lia.
  - rewrite (u64_small (amp * 4)) by (unfold is_u64, UINT64_MAX; lia).
    apply u64_double_nonzero. lia.
  - rewrite Hry. cbn [bind]. destruct (y >=? bal_out); eauto.
  - rewrite Hry. cbn [bind]. eauto.
Qed.

Lemma math_simulate_swap_returns_witness :
  exists r, MathHpp.simulate_swap 1000000 1000000 1000 100 30 = Ret r.
Proof.
  apply (math_simulate_swap_returns 1000000 1000000 1000 100 30).
  - reflexivity.
  - lia.
  - lia.
  - lia.
  - lia.
Defined.

(** X4: for a fee of at most 10000 basis points, [simulate_swap] of math.hpp
    never returns more than the output balance of the pool, whatever wraps on
    the way. *)
Theorem math_simulate_swap_le_bal_out
  (bal_in bal_out amount_in amp fee_bps r : Z) :
  is_u64 bal_out -> 0 <= fee_bps <= FEE_DENOMINATOR ->
  MathHpp.simulate_swap bal_in bal_out amount_in amp fee_bps = Ret (Some r) ->
  0 <= r <= bal_out.
Proof.
  unfold FEE_DENOMINATOR. intros Hb Hf. unfold MathHpp.simulate_swap.
  destruct (MathHpp.calc_d bal_in bal_out amp) as [[d|]| | |];
    cbn [bind]; try discriminate.
  destruct (MathHpp.calc_y (u64 (bal_in + amount_in)) d amp)
    as [[nbo|]| | |] eqn:Hy; cbn [bind]; try discriminate.
  apply calc_y_range in Hy.
  destruct (Z.geb_spec nbo bal_out) as [Hge|Hlt].
  - intros H. injection H as <-. unfold is_u64 in *. lia.
  - intros H. injection H as <-.
    unfold is_u64, UINT64_MAX, FEE_DENOMINATOR in *.
    rewrite (u64_small (bal_out - nbo)) by (unfold is_u64, UINT64_MAX; lia).
    set (gross := bal_out - nbo).
    assert (Hg : 0 < gross <= bal_out) by (unfold gross; lia).
    assert (Hm : 0 <= u64 (gross * fee_bps) <= gross * fee_bps).
    { unfold u64, wrap. split.
      - apply Z.mod_pos_bound. lia.
      - apply Z.mod_le; nia. }
    assert (Hfee : 0 <= u64 (gross * fee_bps) / 10000 <= gross).
    { split; [apply Z.div_pos; lia|].
      apply Z.div_le_upper_bound; [lia|]. nia. }
    rewrite u64_small by (unfold is_u64, UINT64_MAX; lia). lia.
Qed.

Lemma math_simulate_swap_le_bal_out_witness :
  0 <= 9969950171 <= 1000000000000.
Proof.
  apply (math_simulate_swap_le_bal_out 1000000000000 1000000000000
           10000000000 1000 30 9969950171).
  - unfold is_u64, UINT64_MAX. lia.
  - unfold FEE_DENOMINATOR. lia.
  - vm_compute. reflexivity.
Defined.

(** ** Balanced pools *)

(** One iteration on a balanced pool, started at the sum of the balances. *)
Lemma math_calc_d_loop_balanced (k : nat) (x amp : Z) :
  0 < x -> 1 <= amp <= 100000 ->
  (4 * amp + 2) * ((2 * x) * (2 * x)) < 2 ^ 128 ->
  MathHpp.calc_d_loop (S k) x x (2 * x) (amp * 4) (2 * x) = Ret (Some (2 * x)).
Proof.
  intros Hx Hamp Hfit.
  assert (Hu : u64 (2 * x) = 2 * x).
  { apply u64_small. unfold is_u64, UINT64_MAX.
    change (2 ^ 128) with (2 ^ 64 * 2 ^ 64) in Hfit. nia. }
  cbn [MathHpp.calc_d_loop]. unfold MathHpp.mul128. rewrite Hu.
  set (d := 2 * x) in *.
  assert (Hd : 2 <= d) by (unfold d; lia).
  assert (Hdd : d <= d * d) by nia.
  assert (Hdd2 : d * d <= (4 * amp + 2) * (d * d)) by nia.
  assert (W64 : forall z, 0 <= z < 2 ^ 64 -> u64 z = z).
  { intros z Hz. apply u64_small. unfold is_u64, UINT64_MAX. lia. }
  assert (W128 : forall z, 0 <= z < 2 ^ 128 -> u128 z = z).
  { intros z Hz. apply u128_small. unfold is_u128, UINT128_MAX. lia. }
  rewrite (W128 (d * d)) by nia.
  rewrite udiv_nonzero by lia. rewrite Z.div_mul by lia. cbn [bind].
  rewrite (W128 (d * d)) by nia.
  rewrite udiv_nonzero by lia. rewrite Z.div_mul by lia. cbn [bind].
  cbv zeta.
  rewrite (W64 (amp * 4 - 1)) by lia.
  rewrite (W128 (amp * 4 * d)) by nia.
  rewrite (W128 (d * 2)) by nia.
  rewrite (W128 (amp * 4 * d + d * 2)) by nia.
  rewrite (W128 ((amp * 4 * d + d * 2) * d)) by nia.
  rewrite (W128 ((amp * 4 - 1) * d)) by nia.
  rewrite (W128 (d * 3)) by nia.
  rewrite (W128 ((amp * 4 - 1) * d + d * 3)) by nia.
  replace ((amp * 4 * d + d * 2) * d)
    with (d * ((amp * 4 - 1) * d + d * 3)) by ring.
  destruct (Z.eqb_spec ((amp * 4 - 1) * d + d * 3) 0) as [E|Hne]; [nia|].
  rewrite Z.div_mul by exact Hne.
  assert (Hd64 : d < 2 ^ 64) by (rewrite <- Hu; apply Z.mod_pos_bound; lia).
  rewrite (W64 d) by lia.
  destruct (Z.gtb_spec d d) as [H|_]; [lia|].
  rewrite Z.sub_diag. reflexivity.
Qed.

(** X5: on a balanced pool [calc_d] of math.hpp returns the sum of the two
    balances after one iteration, for an amp that passes [check_amp] and as
    long as [(4 * amp + 2) * (2 * x)^2] fits in 128 bits (any x up to
    10^16). *)
Theorem math_calc_d_balanced (x amp : Z) :
  0 < x -> MathHpp.check_amp amp = true ->
  (4 * amp + 2) * ((2 * x) * (2 * x)) <= UINT128_MAX ->
  MathHpp.calc_d x x amp = Ret (Some (2 * x)).
Proof.
  unfold UINT128_MAX. intros Hx Hamp Hfit. apply check_amp_range in Hamp.
  assert (Hu : u64 (x + x) = 2 * x).
  { replace (x + x) with (2 * x) by lia.
    apply u64_small. unfold is_u64, UINT64_MAX.
    change (2 ^ 128) with (2 ^ 64 * 2 ^ 64) in Hfit. nia. }
  unfold MathHpp.calc_d. rewrite Hu.
  rewrite (u64_small (amp * 4)) by (unfold is_u64, UINT64_MAX; lia).
  destruct (Z.eqb_spec (2 * x) 0) as [E|_]; [lia|].
  change NEWTON_ITERATIONS with (S 254).
  apply math_calc_d_loop_balanced; lia.
Qed.

Lemma math_calc_d_balanced_witness :
  MathHpp.calc_d 1000000000000 1000000000000 1000
  = Ret (Some (2 * 1000000000000)).
Proof.
  apply (math_calc_d_balanced 1000000000000 1000).
  - lia.
  - reflexivity.
  - unfold UINT128_MAX. lia.
Defined.

(** ** Liquidity *)

(** X6: the initial deposit of math.hpp mints the geometric mean rounded
    down, which lies between the smaller and the larger of the two amounts. *)
Theorem calc_initial_lp_between (amount0 amount1 : Z) :
  is_u64 amount0 -> is_u64 amount1 ->
  exists lp, MathHpp.calc_initial_lp amount0 amount1 = Ret lp /\
             Z.min amount0 amount1 <= lp <= Z.max amount0 amount1 /\
             lp * lp <= amount0 * amount1 < (lp + 1) * (lp + 1).
Proof.
  intros H0 H1. exists (Z.sqrt (amount0 * amount1)).
  unfold MathHpp.calc_initial_lp. rewrite mul128_exact by assumption.
  unfold is_u64, UINT64_MAX in *.
  split; [|split].
  - apply isqrt128_correct. unfold UINT128_MAX.
    change (2 ^ 128) with (2 ^ 64 * 2 ^ 64). nia.
  - split.
    + rewrite <- (Z.sqrt_square (Z.min amount0 amount1)) at 1 by lia.
      apply Z.sqrt_le_mono. nia.
    + rewrite <- (Z.sqrt_square (Z.max amount0 amount1)) at 1 by lia.
      apply Z.sqrt_le_mono. nia.
  - pose proof (Z.sqrt_spec (amount0 * amount1) ltac:(nia)) as H.
    replace (Z.succ (Z.sqrt (amount0 * amount1)))
      with (Z.sqrt (amount0 * amount1) + 1) in H by lia.
    exact H.
Qed.

Lemma calc_initial_lp_between_witness :
  exists lp, MathHpp.calc_initial_lp 100000000 400000000 = Ret lp /\
             Z.min 100000000 400000000 <= lp <= Z.max 100000000 400000000 /\
             lp * lp <= 100000000 * 400000000 < (lp + 1) * (lp + 1).
Proof.
  apply (calc_initial_lp_between 100000000 400000000);
    unfold is_u64, UINT64_MAX; lia.
Defined.

(** The payout of one token: [div128 (mul128 bal lp_amount) lp_supply]. *)
Lemma withdraw_share (bal lp_amount lp_supply : Z) :
  is_u64 bal -> 0 <= lp_amount <= lp_supply -> is_u64 lp_supply ->
  lp_supply <> 0 ->
  MathHpp.div128 (MathHpp.mul128 bal lp_amount) lp_supply
  = bal * lp_amount / lp_supply /\
  0 <= bal * lp_amount / lp_supply <= bal.
Proof.
  intros Hb Ha Hs Hnz.
  assert (Hal : is_u64 lp_amount) by (unfold is_u64 in *; lia).
  rewrite mul128_exact by assumption.
  unfold MathHpp.div128. destruct (Z.eqb_spec lp_supply 0); [contradiction|].
  unfold is_u64, UINT64_MAX in *.
  assert (Hq : 0 <= bal * lp_amount / lp_supply <= bal).
  { split; [apply Z.div_pos; nia|].
    apply Z.div_le_upper_bound; [lia|]. nia. }
  split; [|exact Hq].
  apply u64_small. unfold is_u64, UINT64_MAX. lia.
Qed.

(** X7: burning at most the whole supply pays out, for each token, the
    pro-rata share rounded down, which never exceeds the balance. *)
Theorem calc_withdraw_within_balances (lp_amount bal0 bal1 lp_supply : Z) :
  is_u64 bal0 -> is_u64 bal1 -> is_u64 lp_supply ->
  0 <= lp_amount <= lp_supply -> lp_supply <> 0 ->
  exists w, MathHpp.calc_withdraw lp_amount bal0 bal1 lp_supply = Some w /\
            MathHpp.amount0 w = bal0 * lp_amount / lp_supply /\
            MathHpp.amount1 w = bal1 * lp_amount / lp_supply /\
            0 <= MathHpp.amount0 w <= bal0 /\
            0 <= MathHpp.amount1 w <= bal1.
Proof.
  intros H0 H1 Hs Ha Hnz. unfold MathHpp.calc_withdraw.
  destruct (Z.eqb_spec lp_supply 0); [contradiction|].
  destruct (withdraw_share bal0 lp_amount lp_supply H0 Ha Hs Hnz) as [E0 B0].
  destruct (withdraw_share bal1 lp_amount lp_supply H1 Ha Hs Hnz) as [E1 B1].
  eexists. split; [reflexivity|]. cbn [MathHpp.amount0 MathHpp.amount1].
  rewrite E0, E1. auto.
Qed.

Lemma calc_withdraw_within_balances_witness :
  exists w, MathHpp.calc_withdraw 100 1000 3000 300 = Some w /\
            MathHpp.amount0 w = 1000 * 100 / 300 /\
            MathHpp.amount1 w = 3000 * 100 / 300 /\
            0 <= MathHpp.amount0 w <= 1000 /\
            0 <= MathHpp.amount1 w <= 3000.
Proof.
  apply (calc_withdraw_within_balances 100 1000 3000 300);
    unfold is_u64, UINT64_MAX; lia.
Defined.

(** Two burns in a row against one burn, for one token. *)
Lemma split_share_le (bal a b supply : Z) :
  0 <= bal -> 0 <= a -> 0 <= b -> a + b <= supply -> 0 < supply - a ->
  let x1 := bal * a / supply in
  let x2 := (bal - x1) * b / (supply - a) in
  x1 + x2 <= bal * (a + b) / supply.
Proof.
  intros Hbal Ha Hb Hab Ht x1 x2.
  assert (Hs : 0 < supply) by lia.
  pose proof (Z.mul_div_le (bal * a) supply Hs) as H1. fold x1 in H1.
  assert (Hx1 : 0 <= x1) by (apply Z.div_pos; nia).
  assert (Hx1b : x1 <= bal).
  { apply Z.div_le_upper_bound; [lia|]. nia. }
  pose proof (Z.mul_div_le ((bal - x1) * b) (supply - a) Ht) as H2.
  fold x2 in H2.
  apply Z.div_le_lower_bound; [lia|].
  (* (supply - a) * supply * (x1 + x2) <= (supply - a) * bal * (a + b) *)
  apply Z.mul_le_mono_pos_l with (p := supply - a); [lia|].
  assert (Hk : supply * ((supply - a) * x2) <= supply * ((bal - x1) * b))
    by (apply Z.mul_le_mono_nonneg_l; lia).
  assert (Hm : (supply - a - b) * (supply * x1) <= (supply - a - b) * (bal * a))
    by (apply Z.mul_le_mono_nonneg_l; lia).
  nia.
Qed.

(** X8: splitting a burn into two successive withdrawals, the second against
    the balances and supply left by the first, never pays out more of either
    token than the single burn of the same total. *)
Theorem calc_withdraw_split_not_better
  (a b bal0 bal1 lp_supply : Z) (w1 w2 w : MathHpp.WithdrawResult) :
  is_u64 bal0 -> is_u64 bal1 -> is_u64 lp_supply ->
  0 <= a -> 0 <= b -> a + b <= lp_supply -> a < lp_supply ->
  MathHpp.calc_withdraw a bal0 bal1 lp_supply = Some w1 ->
  MathHpp.calc_withdraw b (bal0 - MathHpp.amount0 w1)
    (bal1 - MathHpp.amount1 w1) (lp_supply - a) = Some w2 ->
  MathHpp.calc_withdraw (a + b) bal0 bal1 lp_supply = Some w ->
  MathHpp.amount0 w1 + MathHpp.amount0 w2 <= MathHpp.amount0 w /\
  MathHpp.amount1 w1 + MathHpp.amount1 w2 <= MathHpp.amount1 w.
Proof.
  intros H0 H1 Hs Ha Hb Hab Hlt E1 E2 E.
  assert (Hnz : lp_supply <> 0) by lia.
  assert (Hnz' : lp_supply - a <> 0) by lia.
  assert (Hs' : is_u64 (lp_supply - a)) by (unfold is_u64 in *; lia).
  unfold MathHpp.calc_withdraw in E1, E2, E.
  destruct (Z.eqb_spec lp_supply 0); [contradiction|].
  destruct (Z.eqb_spec (lp_supply - a) 0); [contradiction|].
  destruct (withdraw_share bal0 a lp_supply H0 ltac:(lia) Hs Hnz) as [A0 B0].
  destruct (withdraw_share bal1 a lp_supply H1 ltac:(lia) Hs Hnz) as [A1 B1].
  destruct (withdraw_share bal0 (a + b) lp_supply H0 ltac:(lia) Hs Hnz)
    as [C0 _].
  destruct (withdraw_share bal1 (a + b) lp_supply H1 ltac:(lia) Hs Hnz)
    as [C1 _].
  injection E1 as <-. injection E as <-.
  cbn [MathHpp.amount0 MathHpp.amount1] in *.
  rewrite A0, A1 in E2. rewrite A0, A1, C0, C1.
  assert (R0 : is_u64 (bal0 - bal0 * a / lp_supply))
    by (unfold is_u64 in *; lia).
  assert (R1 : is_u64 (bal1 - bal1 * a / lp_supply))
    by (unfold is_u64 in *; lia).
  destruct (withdraw_share _ b (lp_supply - a) R0 ltac:(lia) Hs' Hnz')
    as [D0 _].
  destruct (withdraw_share _ b (lp_supply - a) R1 ltac:(lia) Hs' Hnz')
    as [D1 _].
  rewrite D0, D1 in E2. injection E2 as <-.
  cbn [MathHpp.amount0 MathHpp.amount1].
  unfold is_u64 in *.
  split; apply split_share_le; lia.
Qed.

Lemma calc_withdraw_split_not_better_witness :
  3 + 4 <= 7 /\ 3 + 4 <= 7.
Proof.
  apply (calc_withdraw_split_not_better 5 5 10 10 13
           (MathHpp.mkWithdrawResult 3 3) (MathHpp.mkWithdrawResult 4 4)
           (MathHpp.mkWithdrawResult 7 7));
    try (unfold is_u64, UINT64_MAX; lia); reflexivity.
Defined.

(** ** Slippage bound and virtual price *)

(** X9: for a tolerance of at most 10000 basis points, [calc_min_output]
    never exceeds the expected output, and it is the exact share
    [expected * (10000 - slippage) / 10000] as long as that product fits in
    64 bits. *)
Theorem calc_min_output_bounds (expected_output slippage_bps : Z) :
  is_u64 expected_output -> 0 <= slippage_bps <= FEE_DENOMINATOR ->
  0 <= MathHpp.calc_min_output expected_output slippage_bps <= expected_output /\
  (expected_output * (FEE_DENOMINATOR - slippage_bps) <= UINT64_MAX ->
   MathHpp.calc_min_output expected_output slippage_bps
   = expected_output * (FEE_DENOMINATOR - slippage_bps) / FEE_DENOMINATOR).
Proof.
  unfold is_u64, UINT64_MAX, FEE_DENOMINATOR, MathHpp.calc_min_output,
    FEE_DENOMINATOR.
  intros He Hs.
  rewrite (u64_small (10000 - slippage_bps))
    by (unfold is_u64, UINT64_MAX; lia).
  set (p := expected_output * (10000 - slippage_bps)).
  assert (Hp : 0 <= p <= expected_output * 10000) by (unfold p; nia).
  assert (Hm : 0 <= u64 p <= p).
  { unfold u64, wrap. split; [apply Z.mod_pos_bound; lia|].
    apply Z.mod_le; lia. }
  split.
  - split; [apply Z.div_pos; lia|].
    apply Z.div_le_upper_bound; lia.
  - intros Hfit. rewrite u64_small by (unfold is_u64, UINT64_MAX; lia).
    reflexivity.
Qed.

Lemma calc_min_output_bounds_witness :
  0 <= MathHpp.calc_min_output 1000000 50 <= 1000000 /\
  (1000000 * (FEE_DENOMINATOR - 50) <= UINT64_MAX ->
   MathHpp.calc_min_output 1000000 50
   = 1000000 * (FEE_DENOMINATOR - 50) / FEE_DENOMINATOR).
Proof.
  apply (calc_min_output_bounds 1000000 50).
  - unfold is_u64, UINT64_MAX. lia.
  - unfold FEE_DENOMINATOR. lia.
Defined.

(** Above 2^64 / 10000 the product wraps and the bound falls far below the
    share: the tolerance of 0.5% becomes one of more than 99%. *)
Example calc_min_output_wraps :
  MathHpp.calc_min_output 2000000000000000 50 = 145325592629044.
Proof. vm_compute. reflexivity. Qed.

(** X10: [calc_virtual_price] returns [std::nullopt] on an empty supply
    without looking at the balances, and otherwise, when [calc_d] returns D,
    exactly [D * 10^18 / lp_supply] without wrap-around. *)
Theorem calc_virtual_price_value (bal0 bal1 lp_supply amp : Z) :
  (lp_supply = 0 ->
   MathHpp.calc_virtual_price bal0 bal1 lp_supply amp = Ret None) /\
  (forall d, lp_supply <> 0 ->
   MathHpp.calc_d bal0 bal1 amp = Ret (Some d) ->
   MathHpp.calc_virtual_price bal0 bal1 lp_supply amp
   = Ret (Some (d * MathHpp.PRECISION_18 / lp_supply))).
Proof.
  split.
  - intros ->. reflexivity.
  - intros d Hnz Hd. unfold MathHpp.calc_virtual_price.
    destruct (Z.eqb_spec lp_supply 0); [contradiction|].
    rewrite Hd. cbn [bind]. apply calc_d_range in Hd.
    unfold is_u64, UINT64_MAX, MathHpp.PRECISION_18 in *.
    rewrite (u128_small d) by (unfold is_u128, UINT128_MAX; lia).
    rewrite u128_small by (unfold is_u128, UINT128_MAX; lia).
    rewrite udiv_nonzero by assumption. reflexivity.
Qed.

(** ** Farming rewards *)

Lemma calc_new_acc_reward_exact (current_acc reward total_staked : Z) :
  is_u64 current_acc -> is_u64 reward -> is_u64 total_staked ->
  total_staked <> 0 ->
  current_acc + reward * PRECISION / total_staked <= UINT64_MAX ->
  MathHpp.calc_new_acc_reward current_acc reward total_staked
  = current_acc + reward * PRECISION / total_staked.
Proof.
  intros Hc Hr Ht Hnz Hfit. unfold MathHpp.calc_new_acc_reward.
  destruct (Z.eqb_spec total_staked 0); [contradiction|].
  unfold MathHpp.mul128.
  unfold is_u64, UINT64_MAX, PRECISION in *.
  rewrite u128_small
    by (unfold is_u128, UINT128_MAX;
        change (2 ^ 128) with (2 ^ 64 * 2 ^ 64); nia).
  assert (Hq : 0 <= reward * 1000000000000 / total_staked)
    by (apply Z.div_pos; lia).
  rewrite (u64_small (reward * 1000000000000 / total_staked))
    by (unfold is_u64, UINT64_MAX; lia).
  rewrite u64_small by (unfold is_u64, UINT64_MAX; lia).
  reflexivity.
Qed.

(** X11: [calc_new_acc_reward] leaves the accumulator unchanged when nothing
    is staked; otherwise it adds [reward * 10^12 / total_staked], and the
    accumulator does not decrease, as long as the sum fits in 64 bits. *)
Theorem calc_new_acc_reward_monotone (current_acc reward total_staked : Z) :
  is_u64 current_acc -> is_u64 reward -> is_u64 total_staked ->
  (total_staked = 0 ->
   MathHpp.calc_new_acc_reward current_acc reward total_staked = current_acc) /\
  (total_staked <> 0 ->
   current_acc + reward * PRECISION / total_staked <= UINT64_MAX ->
   MathHpp.calc_new_acc_reward current_acc reward total_staked
   = current_acc + reward * PRECISION / total_staked /\
   current_acc
   <= MathHpp.calc_new_acc_reward current_acc reward total_staked).
Proof.
  intros Hc Hr Ht. split.
  - intros ->. reflexivity.
  - intros Hnz Hfit.
    rewrite calc_new_acc_reward_exact by assumption.
    split; [reflexivity|].
    assert (Hq : 0 <= reward * PRECISION / total_staked);
      [|lia].
    unfold is_u64, PRECISION in *. apply Z.div_pos; lia.
Qed.

Lemma calc_new_acc_reward_monotone_witness :
  MathHpp.calc_new_acc_reward 5 7 0 = 5 /\
  MathHpp.calc_new_acc_reward 5 7 2 = 5 + 7 * PRECISION / 2 /\
  5 <= MathHpp.calc_new_acc_reward 5 7 2.
Proof.
  assert (Hu : forall z, 0 <= z <= 1000 -> is_u64 z).
  { intros z Hz. unfold is_u64, UINT64_MAX. lia. }
  split.
  - apply (proj1 (calc_new_acc_reward_monotone 5 7 0
                    (Hu 5 ltac:(lia)) (Hu 7 ltac:(lia)) (Hu 0 ltac:(lia)))).
    reflexivity.
  - apply (proj2 (calc_new_acc_reward_monotone 5 7 2
                    (Hu 5 ltac:(lia)) (Hu 7 ltac:(lia)) (Hu 2 ltac:(lia)))).
    + discriminate.
    + vm_compute. discriminate.
Defined.

(** The accumulator can go down: the increase is cut to 64 bits and the sum
    wraps. *)
Example calc_new_acc_reward_wraps :
  MathHpp.calc_new_acc_reward 10 18446744073709551615 1 = 18446743073709551626
  /\ MathHpp.calc_new_acc_reward 18446744073709551615 1 1 = 999999999999.
Proof. split; vm_compute; reflexivity. Qed.

Lemma floor_add_diff (a b p : Z) :
  0 < p -> 0 <= a -> 0 <= b -> forall r, b <= r * p ->
  (a + b) / p - a / p <= r.
Proof.
  intros Hp Ha Hb r Hr.
  assert (H : (a + b) / p <= a / p + r); [|lia].
  replace (a / p + r) with ((a + r * p) / p) by (rewrite Z.div_add; lia).
  apply Z.div_le_mono; lia.
Qed.

(** X12: a staker whose debt was taken at the accumulator [acc0] is owed,
    after one distribution of [reward] over [total_staked], at most [reward]:
    [calc_pending_reward] composed with [calc_new_acc_reward] never pays one
    staker more than was distributed. *)
Theorem calc_pending_reward_le_reward (staked total_staked acc0 reward : Z) :
  is_u64 staked -> is_u64 total_staked -> is_u64 acc0 -> is_u64 reward ->
  staked <= total_staked -> total_staked <> 0 ->
  acc0 + reward * PRECISION / total_staked <= UINT64_MAX ->
  let debt := MathHpp.mul128 staked acc0 / PRECISION in
  let acc1 := MathHpp.calc_new_acc_reward acc0 reward total_staked in
  debt <= UINT64_MAX ->
  MathHpp.calc_pending_reward staked acc0 debt = 0 /\
  0 <= MathHpp.calc_pending_reward staked acc1 debt <= reward.
Proof.
  intros Hs Ht Ha Hr Hle Hnz Hfit debt acc1 Hdebt.
  assert (Hacc1 : acc1 = acc0 + reward * PRECISION / total_staked).
  { unfold acc1.
    apply calc_new_acc_reward_exact; assumption. }
  assert (Hq : 0 <= reward * PRECISION / total_staked).
  { unfold is_u64, PRECISION in *. apply Z.div_pos; lia. }
  assert (Hacc1u : is_u64 acc1) by (unfold is_u64 in *; lia).
  unfold MathHpp.calc_pending_reward. fold debt.
  rewrite (mul128_exact staked acc1) by assumption.
  unfold debt at 1 2. split.
  - destruct (Z.leb_spec (MathHpp.mul128 staked acc0 / PRECISION)
                (MathHpp.mul128 staked acc0 / PRECISION)); [reflexivity|lia].
  - unfold debt. rewrite (mul128_exact staked acc0) by assumption.
    set (q := reward * PRECISION / total_staked) in *.
    assert (Hb : staked * q <= reward * PRECISION).
    { assert (total_staked * q <= reward * PRECISION).
      { unfold q. apply Z.mul_div_le. unfold is_u64 in *. lia. }
      unfold is_u64 in *. nia. }
    assert (Hdiff : staked * acc1 / PRECISION - staked * acc0 / PRECISION
                    <= reward).
    { rewrite Hacc1. rewrite Z.mul_add_distr_l.
      apply floor_add_diff; unfold is_u64, PRECISION in *; nia. }
    destruct (Z.leb_spec (staked * acc1 / PRECISION)
                (staked * acc0 / PRECISION)) as [H|H].
    + unfold is_u64 in *. lia.
    + rewrite u64_small; unfold is_u64 in *; lia.
Qed.

Lemma calc_pending_reward_le_reward_witness :
  MathHpp.calc_pending_reward 30 5
    (MathHpp.mul128 30 5 / PRECISION) = 0 /\
  0 <= MathHpp.calc_pending_reward 30
         (MathHpp.calc_new_acc_reward 5 7 100)
         (MathHpp.mul128 30 5 / PRECISION) <= 7.
Proof.
  assert (Hu : forall z, 0 <= z <= 1000 -> is_u64 z).
  { intros z Hz. unfold is_u64, UINT64_MAX. lia. }
  apply (calc_pending_reward_le_reward 30 100 5 7);
    try (apply Hu; lia); try lia.
  - vm_compute. discriminate.
  - vm_compute. discriminate.
Defined.

(** ** Imbalance check *)

(** X13: [check_imbalance] does not depend on the order of the two balances,
    rejects any pool with an empty side, and, when the smaller balance times
    the ratio fits in 64 bits, accepts exactly the pools whose larger balance
    is at most that product. *)
Theorem check_imbalance_symmetric (bal0 bal1 max_ratio : Z) :
  MathHpp.check_imbalance bal0 bal1 max_ratio
  = MathHpp.check_imbalance bal1 bal0 max_ratio /\
  (bal0 = 0 \/ bal1 = 0 ->
   MathHpp.check_imbalance bal0 bal1 max_ratio = false) /\
  (0 < bal0 -> 0 < bal1 -> 0 <= max_ratio ->
   Z.min bal0 bal1 * max_ratio <= UINT64_MAX ->
   (MathHpp.check_imbalance bal0 bal1 max_ratio = true <->
    Z.max bal0 bal1 <= Z.min bal0 bal1 * max_ratio)).
Proof.
  unfold MathHpp.check_imbalance. split; [|split].
  - destruct (Z.eqb_spec bal0 0), (Z.eqb_spec bal1 0); cbn [orb];
      try reflexivity.
    destruct (Z.gtb_spec bal0 bal1), (Z.gtb_spec bal1 bal0);
      try reflexivity; try lia.
    assert (bal0 = bal1) by lia. subst. reflexivity.
  - intros [-> | ->]; [reflexivity|].
    destruct (bal0 =? 0); reflexivity.
  - intros H0 H1 Hr Hfit. unfold UINT64_MAX in Hfit.
    destruct (Z.eqb_spec bal0 0); [lia|].
    destruct (Z.eqb_spec bal1 0); [lia|]. cbn [orb].
    destruct (Z.gtb_spec bal0 bal1) as [Hgt|Hle].
    + rewrite Z.max_l, Z.min_r in * by lia.
      rewrite u64_small by (unfold is_u64, UINT64_MAX; nia).
      apply Z.leb_le.
    + rewrite Z.max_r, Z.min_l in * by lia.
      rewrite u64_small by (unfold is_u64, UINT64_MAX; nia).
      apply Z.leb_le.
Qed.

(** The product is taken in 64 bits: two equal balances of 2^63 fail the
    check at the default ratio of 10. *)
Example check_imbalance_wraps :
  MathHpp.check_imbalance (2 ^ 63) (2 ^ 63) 10 = false.
Proof. vm_compute. reflexivity. Qed.

(** ** Inside the ramp *)

(** X14: strictly inside the window, with a window of at most [INT64_MAX]
    and [|target_amp - amp| * (now - ramp_start)] fitting in 64 bits,
    [get_current_amp] returns the linear interpolation rounded towards the
    original amp, a value between the original amp and the target. *)
Theorem get_current_amp_interior (amp target_amp ramp_start ramp_end now : Z) :
  is_u64 amp -> is_u64 target_amp ->
  ramp_start < now < ramp_end -> ramp_end - ramp_start <= INT64_MAX ->
  Z.abs (target_amp - amp) * (now - ramp_start) <= UINT64_MAX ->
  exists v,
    MathHpp.get_current_amp amp target_amp ramp_start ramp_end now = Ret v /\
    Z.min amp target_amp <= v <= Z.max amp target_amp /\
    (amp <= target_amp ->
     v = amp + (target_amp - amp) * (now - ramp_start)
               / (ramp_end - ramp_start)) /\
    (target_amp <= amp ->
     v = amp - (amp - target_amp) * (now - ramp_start)
               / (ramp_end - ramp_start)).
Proof.
  unfold is_u64, UINT64_MAX, INT64_MAX. intros Ha Ht Hnow Hwin Hfit.
  unfold MathHpp.get_current_amp.
  destruct (Z.geb_spec now ramp_end); [lia|].
  destruct (Z.eqb_spec ramp_end ramp_start); [lia|]. cbn [orb].
  destruct (Z.leb_spec now ramp_start); [lia|].
  unfold sub_i64, INT64_MIN, INT64_MAX.
  destruct (Z.leb_spec (- 2 ^ 63) (now - ramp_start)); [|lia].
  destruct (Z.leb_spec (now - ramp_start) (2 ^ 63 - 1)); [|lia].
  destruct (Z.leb_spec (- 2 ^ 63) (ramp_end - ramp_start)); [|lia].
  destruct (Z.leb_spec (ramp_end - ramp_start) (2 ^ 63 - 1)); [|lia].
  cbn [andb bind].
  set (e := now - ramp_start) in *. set (w := ramp_end - ramp_start) in *.
  assert (W64 : forall z, 0 <= z < 2 ^ 64 -> u64 z = z).
  { intros z Hz. apply u64_small. unfold is_u64, UINT64_MAX. lia. }
  rewrite (W64 e), (W64 w) by lia.
  rewrite udiv_nonzero by lia. rewrite udiv_nonzero by lia.
  assert (Hstep : forall k, 0 <= k -> k * e <= 2 ^ 64 - 1 ->
                  0 <= k * e / w <= k).
  { intros k Hk _. split; [apply Z.div_pos; nia|].
    apply Z.div_le_upper_bound; [lia|]. nia. }
  destruct (Z.gtb_spec target_amp amp) as [Hgt|Hle]; cbn [bind].
  - rewrite Z.abs_eq in Hfit by lia.
    rewrite (W64 (target_amp - amp)) by lia.
    rewrite (W64 ((target_amp - amp) * e)) by nia.
    pose proof (Hstep (target_amp - amp) ltac:(lia) Hfit) as Hq.
    rewrite W64 by lia.
    eexists. split; [reflexivity|]. split; [lia|]. split; [reflexivity|].
    intros Hc. lia.
  - rewrite Z.abs_neq in Hfit by lia.
    replace (- (target_amp - amp)) with (amp - target_amp) in Hfit by lia.
    rewrite (W64 (amp - target_amp)) by lia.
    rewrite (W64 ((amp - target_amp) * e)) by nia.
    pose proof (Hstep (amp - target_amp) ltac:(lia) Hfit) as Hq.
    rewrite W64 by lia.
    eexists. split; [reflexivity|]. split; [lia|]. split; [|reflexivity].
    intros Hc. assert (amp = target_amp) by lia. subst.
    rewrite Z.sub_diag, Z.mul_0_l. cbn. lia.
Qed.

Lemma get_current_amp_interior_witness :
  exists v,
    MathHpp.get_current_amp 100 200 1000 2000 1250 = Ret v /\
    Z.min 100 200 <= v <= Z.max 100 200 /\
    (100 <= 200 -> v = 100 + (200 - 100) * (1250 - 1000) / (2000 - 1000)) /\
    (200 <= 100 -> v = 100 - (100 - 200) * (1250 - 1000) / (2000 - 1000)).
Proof.
  apply (get_current_amp_interior 100 200 1000 2000 1250).
  - unfold is_u64, UINT64_MAX. lia.
  - unfold is_u64, UINT64_MAX. lia.
  - lia.
  - unfold INT64_MAX. lia.
  - unfold UINT64_MAX. lia.
Defined.

(** ** N-token invariant *)

Lemma d_p_loop_returns (n_tokens d : Z) (balances : list Z) : forall d_p,
  Forall (divisible_balance n_tokens) balances ->
  exists r, MathHpp.d_p_loop balances n_tokens d d_p = Ret r.
Proof.
  induction balances as [|b rest IH]; intros d_p HF; cbn [MathHpp.d_p_loop].
  - eauto.
  - inversion HF as [|b' rest' Hb Hrest]; subst.
    destruct (Z.eqb_spec b 0) as [E|E]; [eauto|].
    destruct Hb as [Hb|Hb]; [contradiction|].
    rewrite udiv_nonzero by exact Hb. cbn [bind]. apply IH. exact Hrest.
Qed.

Lemma d_p_loop_zero (n_tokens d : Z) (balances : list Z) : forall d_p,
  Forall (divisible_balance n_tokens) balances -> In 0 balances ->
  MathHpp.d_p_loop balances n_tokens d d_p = Ret None.
Proof.
  induction balances as [|b rest IH]; intros d_p HF Hin;
    cbn [MathHpp.d_p_loop].
  - contradiction.
  - inversion HF as [|b' rest' Hb Hrest]; subst.
    destruct (Z.eqb_spec b 0) as [E|E]; [reflexivity|].
    destruct Hin as [Hin|Hin]; [congruence|].
    destruct Hb as [Hb|Hb]; [contradiction|].
    rewrite udiv_nonzero by exact Hb. cbn [bind]. apply IH; assumption.
Qed.

Lemma calc_d_n_loop_returns (balances : list Z) (n_tokens s ann : Z)
  (iters : nat) : forall d,
  Forall (divisible_balance n_tokens) balances ->
  exists r, MathHpp.calc_d_n_loop iters balances n_tokens s ann d = Ret r.
Proof.
  induction iters as [|iters IH]; intros d HF; cbn [MathHpp.calc_d_n_loop].
  - eauto.
  - destruct (d_p_loop_returns n_tokens d balances d HF) as [[d_p|] Hr];
      rewrite Hr; cbn [bind]; [|eauto]. cbv zeta.
    destruct (_ =? 0); [eauto|].
    destruct (_ >? _); destruct (_ <=? 1); eauto.
Qed.

Lemma bounded_balance_divisible (n_tokens B b : Z) :
  0 < n_tokens -> n_tokens * B <= UINT64_MAX -> 0 <= b <= B ->
  divisible_balance n_tokens b.
Proof.
  unfold UINT64_MAX. intros Hn HB Hb.
  destruct (Z.eq_dec b 0) as [E|E]; [left; exact E|right].
  rewrite u64_small; [nia|]. unfold is_u64, UINT64_MAX. nia.
Qed.

Lemma bounded_balances_divisible (B : Z) (balances : list Z) :
  MathHpp.n_tokens_of balances * B <= UINT64_MAX ->
  Forall (fun b => 0 <= b <= B) balances ->
  Forall (divisible_balance (MathHpp.n_tokens_of balances)) balances.
Proof.
  intros HB HF. destruct balances as [|b0 rest]; [constructor|].
  assert (Hn : 0 < MathHpp.n_tokens_of (b0 :: rest)).
  { unfold MathHpp.n_tokens_of. cbn [length]. lia. }
  eapply Forall_impl; [|exact HF].
  intros b Hb. eapply bounded_balance_divisible; eassumption.
Qed.

(** X15: [calc_d_n] never divides by zero when every balance times the
    number of tokens fits in 64 bits: it returns a value or
    [std::nullopt]. *)
Theorem calc_d_n_returns (balances : list Z) (amp B : Z) :
  MathHpp.n_tokens_of balances <= 255 ->
  Forall (fun b => 0 <= b <= B) balances ->
  MathHpp.n_tokens_of balances * B <= UINT64_MAX ->
  exists r, MathHpp.calc_d_n balances amp = Ret r.
Proof.
  intros _ HF HB. unfold MathHpp.calc_d_n.
  destruct (MathHpp.sum_and_nn balances (MathHpp.n_tokens_of balances) 0 1)
    as [s nn].
  destruct (s =? 0); [eauto|].
  apply calc_d_n_loop_returns. apply (bounded_balances_divisible B); assumption.
Qed.

Lemma calc_d_n_returns_witness :
  exists r, MathHpp.calc_d_n [1000; 2000; 3000] 100 = Ret r.
Proof.
  apply (calc_d_n_returns [1000; 2000; 3000] 100 3000).
  - vm_compute. discriminate.
  - repeat constructor; lia.
  - vm_compute. discriminate.
Defined.

(** The sum of the first loop, when it does not wrap. *)
Lemma sum_and_nn_sum (n_tokens B : Z) (balances : list Z) : forall s nn,
  Forall (fun b => 0 <= b <= B) balances -> 0 <= s ->
  s + Z.of_nat (length balances) * B <= UINT64_MAX ->
  fst (MathHpp.sum_and_nn balances n_tokens s nn)
  = s + fold_right Z.add 0 balances.
Proof.
  induction balances as [|b rest IH]; intros s nn HF Hs Hfit;
    cbn [MathHpp.sum_and_nn fold_right fst].
  - lia.
  - inversion HF as [|b' rest' Hb Hrest]; subst.
    cbn [length] in Hfit. rewrite Nat2Z.inj_succ in Hfit.
    assert (HB : 0 <= Z.of_nat (length rest) * B) by nia.
    rewrite (u64_small (s + b)) by (unfold is_u64; lia).
    rewrite IH; [lia|exact Hrest|lia|lia].
Qed.

Lemma fold_sum_nonzero (B : Z) (balances : list Z) :
  Forall (fun b => 0 <= b <= B) balances ->
  (exists b, In b balances /\ b <> 0) ->
  0 < fold_right Z.add 0 balances.
Proof.
  induction balances as [|b rest IH]; intros HF [c [Hin Hc]].
  - contradiction.
  - inversion HF as [|b' rest' Hb Hrest]; subst. cbn [fold_right].
    assert (Hnn : 0 <= fold_right Z.add 0 rest).
    { clear - Hrest. induction rest as [|r rest IH]; cbn [fold_right]; [lia|].
      inversion Hrest; subst. specialize (IH ltac:(assumption)). lia. }
    destruct Hin as [->|Hin]; [lia|].
    specialize (IH Hrest (ex_intro _ c (conj Hin Hc))). lia.
Qed.

(** X16: under the same bound, a pool with an empty token and a nonempty one
    makes [calc_d_n] return [std::nullopt], where the two-token [calc_d]
    divides by zero. *)
Theorem calc_d_n_zero_balance (balances : list Z) (amp B : Z) :
  MathHpp.n_tokens_of balances <= 255 ->
  Forall (fun b => 0 <= b <= B) balances ->
  MathHpp.n_tokens_of balances * B <= UINT64_MAX ->
  In 0 balances -> (exists b, In b balances /\ b <> 0) ->
  MathHpp.calc_d_n balances amp = Ret None.
Proof.
  intros _ HF HB Hzero Hnz. unfold MathHpp.calc_d_n.
  pose proof (sum_and_nn_sum (MathHpp.n_tokens_of balances) B balances 0 1
                HF ltac:(lia) HB) as Hsum.
  pose proof (fold_sum_nonzero B balances HF Hnz) as Hpos.
  destruct (MathHpp.sum_and_nn balances (MathHpp.n_tokens_of balances) 0 1)
    as [s nn]. cbn [fst] in Hsum.
  destruct (Z.eqb_spec s 0) as [E|_]; [lia|].
  change NEWTON_ITERATIONS with (S 254). 
  assert (Hstep : forall k ann d,
             MathHpp.calc_d_n_loop (S k) balances
               (MathHpp.n_tokens_of balances) s ann d = Ret None).
  { intros k ann d. cbn [MathHpp.calc_d_n_loop].
    rewrite d_p_loop_zero;
      [reflexivity | apply (bounded_balances_divisible B); assumption
      | exact Hzero]. }
  apply Hstep.
Qed.

Lemma calc_d_n_zero_balance_witness :
  MathHpp.calc_d_n [1000; 0; 3000] 100 = Ret None.
Proof.
  apply (calc_d_n_zero_balance [1000; 0; 3000] 100 3000).
  - vm_compute. discriminate.
  - repeat constructor; lia.
  - vm_compute. discriminate.
  - right. left. reflexivity.
  - exists 1000. split; [left; reflexivity | lia].
Defined.

Lemma calc_d_n_loop_two (x y s ann : Z) (iters : nat) : forall d,
  x <> 0 -> y <> 0 ->
  MathHpp.calc_d_n_loop iters [x; y] 2 s ann d
  = MathHpp.calc_d_loop iters x y s ann d.
Proof.
  induction iters as [|iters IH]; intros d Hx Hy;
    cbn [MathHpp.calc_d_n_loop MathHpp.calc_d_loop MathHpp.d_p_loop].
  - reflexivity.
  - destruct (Z.eqb_spec x 0); [contradiction|].
    destruct (Z.eqb_spec y 0); [contradiction|].
    unfold MathHpp.mul128.
    destruct (udiv_cases (u128 (d * d)) (u64 (2 * x))) as [->|[t ->]];
      cbn [bind]; [reflexivity|].
    destruct (udiv_cases (u128 (t * d)) (u64 (2 * y))) as [->|[d_p ->]];
      cbn [bind]; [reflexivity|].
    cbv zeta. change (2 + 1) with 3.
    destruct (_ =? 0); [reflexivity|].
    destruct (_ >? _); destruct (_ <=? 1); try reflexivity; apply IH;
      assumption.
Qed.


(** X17: on two tokens with nonzero balances, [calc_d_n] is [calc_d]: the
    same result, [std::nullopt] or division by zero. *)
Theorem calc_d_n_two_tokens (x y amp : Z) :
  x <> 0 -> y <> 0 ->
  MathHpp.calc_d_n [x; y] amp = MathHpp.calc_d x y amp.
Proof.
  intros Hx Hy. unfold MathHpp.calc_d_n, MathHpp.calc_d.
  cbn [MathHpp.sum_and_nn MathHpp.n_tokens_of length Z.of_nat
       Pos.of_succ_nat Pos.succ].
  (* the sum of the first loop and n^n = 4 *)
  replace (u64 (u64 (0 + x) + y)) with (u64 (x + y))
    by (unfold u64, wrap; rewrite Z.add_0_l, Zplus_mod_idemp_l; reflexivity).
  change (u64 (u128 (u128 (1 * 2) * 2))) with 4.
  destruct (u64 (x + y) =? 0); [reflexivity|].
  (* the Newton loops agree iteration by iteration *)
  apply calc_d_n_loop_two; assumption.
Qed.

Lemma calc_d_n_two_tokens_witness :
  MathHpp.calc_d_n [1000000; 2000000] 100 = MathHpp.calc_d 1000000 2000000 100.
Proof.
  apply (calc_d_n_two_tokens 1000000 2000000 100); discriminate.
Defined.

(** ** Oracle, lottery and candle helpers *)

(** X18: [TwapResult::decode] splits the 64 bits of its argument without
    loss: the three fields are in the range of their types and
    [price + 2^32 * samples + 2^48 * confidence] is the encoded value. *)
Theorem decode_partition (encoded : Z) :
  is_u64 encoded ->
  let r := StableswapHpp.decode encoded in
  0 <= StableswapHpp.price r < 2 ^ 32 /\
  0 <= StableswapHpp.samples r < 2 ^ 16 /\
  0 <= StableswapHpp.confidence r < 2 ^ 16 /\
  StableswapHpp.price r + 2 ^ 32 * StableswapHpp.samples r
  + 2 ^ 48 * StableswapHpp.confidence r = encoded.
Proof.
  intros He r. unfold is_u64, UINT64_MAX in He.
  unfold r, StableswapHpp.decode.
  cbn [StableswapHpp.price StableswapHpp.samples StableswapHpp.confidence].
  change 0xFFFFFFFF with (Z.ones 32). change 0xFFFF with (Z.ones 16).
  rewrite !Z.land_ones by lia. rewrite !Z.shiftr_div_pow2 by lia.
  unfold wrap. rewrite !Z.mod_mod by lia.
  pose proof (Z.mod_pos_bound encoded (2 ^ 32) ltac:(lia)) as H1.
  pose proof (Z.mod_pos_bound (encoded / 2 ^ 32) (2 ^ 16) ltac:(lia)) as H2.
  pose proof (Z.mod_pos_bound (encoded / 2 ^ 48) (2 ^ 16) ltac:(lia)) as H3.
  repeat (split; [lia|]).
  assert (Hq : encoded / 2 ^ 48 = encoded / 2 ^ 32 / 2 ^ 16).
  { rewrite Z.div_div by lia. reflexivity. }
  assert (Hsmall : (encoded / 2 ^ 48) mod 2 ^ 16 = encoded / 2 ^ 48).
  { apply Z.mod_small. split; [apply Z.div_pos; lia|].
    apply Z.div_lt_upper_bound; lia. }
  rewrite Hsmall, Hq.
  pose proof (Z.div_mod encoded (2 ^ 32) ltac:(lia)) as D1.
  pose proof (Z.div_mod (encoded / 2 ^ 32) (2 ^ 16) ltac:(lia)) as D2.
  lia.
Qed.

Lemma decode_partition_witness :
  let r := StableswapHpp.decode 0x2710001800FF4240 in
  0 <= StableswapHpp.price r < 2 ^ 32 /\
  0 <= StableswapHpp.samples r < 2 ^ 16 /\
  0 <= StableswapHpp.confidence r < 2 ^ 16 /\
  StableswapHpp.price r + 2 ^ 32 * StableswapHpp.samples r
  + 2 ^ 48 * StableswapHpp.confidence r = 0x2710001800FF4240.
Proof.
  apply (decode_partition 0x2710001800FF4240).
  unfold is_u64, UINT64_MAX. lia.
Defined.

(** X19: a lottery entry wins only with a ticket of its own range
    [ticket_start <= t < ticket_start + ticket_count], so entries with
    disjoint ranges never win together; when the end of the range fits in
    64 bits every ticket of the range wins. *)
Theorem is_winner_range (e : StableswapHpp.LotteryEntry) (winning_ticket : Z) :
  is_u64 (StableswapHpp.ticket_start e) ->
  is_u64 (StableswapHpp.ticket_count e) ->
  (StableswapHpp.is_winner e winning_ticket = true ->
   StableswapHpp.ticket_start e <= winning_ticket
   < StableswapHpp.ticket_start e + StableswapHpp.ticket_count e) /\
  (StableswapHpp.ticket_start e + StableswapHpp.ticket_count e <= UINT64_MAX ->
   StableswapHpp.ticket_start e <= winning_ticket
   < StableswapHpp.ticket_start e + StableswapHpp.ticket_count e ->
   StableswapHpp.is_winner e winning_ticket = true).
Proof.
  destruct e as [start count]. cbn [StableswapHpp.ticket_start
    StableswapHpp.ticket_count]. unfold is_u64, UINT64_MAX.
  intros Hs Hc. unfold StableswapHpp.is_winner.
  cbn [StableswapHpp.ticket_start StableswapHpp.ticket_count].
  split.
  - intros H. apply andb_true_iff in H. destruct H as [H1 H2].
    apply Z.geb_le in H1. apply Z.ltb_lt in H2.
    destruct (Z_le_gt_dec (start + count) (2 ^ 64 - 1)) as [Hfit|Hwrap].
    + rewrite u64_small in H2 by (unfold is_u64, UINT64_MAX; lia). lia.
    + exfalso.
      assert (Hw : u64 (start + count) = start + count - 2 ^ 64).
      { unfold u64, wrap. symmetry.
        apply Z.mod_unique with (q := 1); lia. }
      lia.
  - intros Hfit Hr. rewrite u64_small by (unfold is_u64, UINT64_MAX; lia).
    apply andb_true_iff. split; [apply Z.geb_le|apply Z.ltb_lt]; lia.
Qed.

Lemma is_winner_range_witness :
  StableswapHpp.is_winner (StableswapHpp.mkLotteryEntry 10 5) 12 = true.
Proof.
  apply (is_winner_range (StableswapHpp.mkLotteryEntry 10 5) 12);
    cbn; unfold is_u64, UINT64_MAX; lia.
Defined.

(** X20: the candle of types.hpp clamps its low at zero, so
    [low <= open], and [open <= high] when [open + high_d] fits in 32 bits;
    the candle of stableswap.hpp agrees while [low_d <= open] and otherwise
    wraps to a low above the open. *)
Theorem candle_low_high (o h l cd v : Z) :
  0 <= o < 2 ^ 32 -> 0 <= h < 2 ^ 16 -> 0 <= l < 2 ^ 16 ->
  let c := TypesHpp.mkCandle o h l cd v in
  let c' := StableswapHpp.mkCandle o h l cd v in
  TypesHpp.low c = Z.max 0 (o - l) /\
  TypesHpp.low c <= o /\
  (o + h < 2 ^ 32 -> o <= TypesHpp.high c /\ TypesHpp.high c = o + h) /\
  (l <= o -> StableswapHpp.low c' = TypesHpp.low c) /\
  (o < l -> StableswapHpp.low c' = o - l + 2 ^ 32 /\ o < StableswapHpp.low c').
Proof.
  intros Ho Hh Hl c c'. unfold c, c', TypesHpp.low, TypesHpp.high,
    StableswapHpp.low.
  cbn [TypesHpp.open TypesHpp.low_d TypesHpp.high_d StableswapHpp.open
       StableswapHpp.low_d].
  assert (W : forall z, 0 <= z < 2 ^ 32 -> wrap 32 z = z)
    by (intros z Hz; apply wrap_small; exact Hz).
  assert (Hneg : o < l -> wrap 32 (o - l) = o - l + 2 ^ 32).
  { intros Hlt. unfold wrap. symmetry.
    apply Z.mod_unique with (q := -1); lia. }
  assert (Hlow : (if o >? l then wrap 32 (o - l) else 0) = Z.max 0 (o - l)).
  { destruct (Z.gtb_spec o l); [rewrite W; lia|lia]. }
  rewrite Hlow.
  split; [reflexivity|]. split; [lia|]. split; [|split].
  - intros Hfit. rewrite W by lia. lia.
  - intros Hlo. rewrite W; lia.
  - intros Hlt. rewrite Hneg by assumption. lia.
Qed.

Lemma candle_low_high_witness :
  let c := TypesHpp.mkCandle 1000000 500 2000 (-7) 3 in
  let c' := StableswapHpp.mkCandle 1000000 500 2000 (-7) 3 in
  TypesHpp.low c = Z.max 0 (1000000 - 2000) /\
  TypesHpp.low c <= 1000000 /\
  (1000000 + 500 < 2 ^ 32 ->
   1000000 <= TypesHpp.high c /\ TypesHpp.high c = 1000000 + 500) /\
  (2000 <= 1000000 -> StableswapHpp.low c' = TypesHpp.low c) /\
  (1000000 < 2000 ->
   StableswapHpp.low c' = 1000000 - 2000 + 2 ^ 32 /\
   1000000 < StableswapHpp.low c').
Proof.
  apply (candle_low_high 1000000 500 2000 (-7) 3); lia.
Defined.

(** ** Instruction data *)

Lemma le_bytes_length (n : nat) : forall v, length (le_bytes n v) = n.
Proof. induction n as [|n IH]; intros v; cbn [le_bytes length]; auto. Qed.

Lemma le_bytes_are_bytes (n : nat) : forall v, Forall is_byte (le_bytes n v).
Proof.
  induction n as [|n IH]; intros v; cbn [le_bytes]; constructor; [|apply IH].
  unfold is_byte. pose proof (Z.mod_pos_bound v 256 ltac:(lia)). lia.
Qed.

Lemma le_value_le_bytes (n : nat) : forall v,
  le_value (le_bytes n v) = v mod 256 ^ Z.of_nat n.
Proof.
  induction n as [|n IH]; intros v.
  - cbn. rewrite Z.mod_1_r. reflexivity.
  - cbn [le_bytes le_value fold_right]. fold (le_value (le_bytes n (v / 256))).
    rewrite IH. rewrite Nat2Z.inj_succ, Z.pow_succ_r by lia.
    rewrite Z.rem_mul_r by (try apply Z.pow_nonzero; lia). reflexivity.
Qed.

Lemma write_u64_loop_le_bytes (iters : nat) : forall v data_,
  is_u64 v ->
  StableswapHpp.write_u64_loop iters v data_ = data_ ++ le_bytes iters v.
Proof.
  induction iters as [|iters IH]; intros v data_ Hv;
    cbn [StableswapHpp.write_u64_loop le_bytes].
  - rewrite app_nil_r. reflexivity.
  - unfold is_u64, UINT64_MAX in Hv.
    change 0xFF with (Z.ones 8). rewrite Z.land_ones by lia.
    rewrite Z.shiftr_div_pow2 by lia. change (2 ^ 8) with 256.
    unfold wrap at 1. change (2 ^ 8) with 256. rewrite Z.mod_mod by lia.
    assert (Hq : is_u64 (v / 256)).
    { unfold is_u64, UINT64_MAX. split; [apply Z.div_pos; lia|].
      assert (v / 256 <= v); [|lia].
      apply Z.div_le_upper_bound; lia. }
    rewrite (u64_small (v / 256)) by exact Hq.
    rewrite IH by exact Hq. rewrite <- app_assoc. reflexivity.
Qed.

Lemma write_u64_le_bytes (v : Z) (data_ : list Z) :
  is_u64 v -> StableswapHpp.write_u64 v data_ = data_ ++ le_bytes 8 v.
Proof. apply write_u64_loop_le_bytes. Qed.

(** X21: [write_u64] appends exactly eight bytes to the data, and their
    little-endian value is the number written. *)
Theorem write_u64_little_endian (v : Z) (data_ : list Z) :
  is_u64 v ->
  exists bytes,
    StableswapHpp.write_u64 v data_ = data_ ++ bytes /\
    length bytes = 8%nat /\ Forall is_byte bytes /\ le_value bytes = v.
Proof.
  intros Hv. exists (le_bytes 8 v).
  split; [apply write_u64_le_bytes; exact Hv|].
  split; [apply le_bytes_length|]. split; [apply le_bytes_are_bytes|].
  rewrite le_value_le_bytes. apply Z.mod_small.
  unfold is_u64, UINT64_MAX in Hv. change (256 ^ Z.of_nat 8) with (2 ^ 64).
  lia.
Qed.

Lemma write_u64_little_endian_witness :
  exists bytes,
    StableswapHpp.write_u64 1000000 [7] = [7] ++ bytes /\
    length bytes = 8%nat /\ Forall is_byte bytes /\ le_value bytes = 1000000.
Proof.
  apply (write_u64_little_endian 1000000 [7]).
  unfold is_u64, UINT64_MAX. lia.
Defined.

(** X22: [write_i64] writes the two's complement of a signed number: eight
    bytes whose little-endian value is [v] for [v >= 0] and [v + 2^64] for
    [v < 0]. *)
Theorem write_i64_twos_complement (v : Z) (data_ : list Z) :
  is_i64 v ->
  exists bytes,
    StableswapHpp.write_i64 v data_ = data_ ++ bytes /\
    length bytes = 8%nat /\ Forall is_byte bytes /\
    le_value bytes = (if v <? 0 then v + 2 ^ 64 else v).
Proof.
  unfold is_i64, INT64_MIN, INT64_MAX. intros Hv.
  unfold StableswapHpp.write_i64.
  assert (Hu : u64 v = if v <? 0 then v + 2 ^ 64 else v).
  { destruct (Z.ltb_spec v 0).
    - unfold u64, wrap. symmetry. apply Z.mod_unique with (q := -1); lia.
    - apply u64_small. unfold is_u64, UINT64_MAX. lia. }
  assert (Hr : is_u64 (u64 v)) by apply u64_range.
  exists (le_bytes 8 (u64 v)).
  split; [apply write_u64_le_bytes; exact Hr|].
  split; [apply le_bytes_length|]. split; [apply le_bytes_are_bytes|].
  rewrite le_value_le_bytes. rewrite <- Hu. apply Z.mod_small.
  unfold is_u64, UINT64_MAX in Hr. change (256 ^ Z.of_nat 8) with (2 ^ 64).
  lia.
Qed.

Lemma write_i64_twos_complement_witness :
  exists bytes,
    StableswapHpp.write_i64 (-2) [] = [] ++ bytes /\
    length bytes = 8%nat /\ Forall is_byte bytes /\
    le_value bytes = (if -2 <? 0 then -2 + 2 ^ 64 else -2).
Proof.
  apply (write_i64_twos_complement (-2) []).
  unfold is_i64, INT64_MIN, INT64_MAX. lia.
Defined.

Lemma le_bytes_injective (v w : Z) :
  is_u64 v -> is_u64 w -> le_bytes 8 v = le_bytes 8 w -> v = w.
Proof.
  unfold is_u64, UINT64_MAX. intros Hv Hw E.
  apply (f_equal le_value) in E. rewrite !le_value_le_bytes in E.
  change (256 ^ Z.of_nat 8) with (2 ^ 64) in E.
  rewrite !Z.mod_small in E by lia. exact E.
Qed.

Lemma app_same_length_inv {A : Type} (a b c d : list A) :
  length a = length c -> a ++ b = c ++ d -> a = c /\ b = d.
Proof.
  revert c. induction a as [|x a IH]; intros [|y c] Hlen E;
    cbn in Hlen; try discriminate.
  - split; [reflexivity|exact E].
  - cbn in E. injection E as -> E. injection Hlen as Hlen.
    destruct (IH c Hlen E) as [-> ->]. split; reflexivity.
Qed.

Lemma swap_layout (from to amount_in min_out deadline : Z) :
  is_u64 amount_in -> is_u64 min_out ->
  StableswapHpp.swap from to amount_in min_out deadline
  = le_bytes 8 StableswapHpp.SWAP ++ [from] ++ [to]
    ++ le_bytes 8 amount_in ++ le_bytes 8 min_out
    ++ le_bytes 8 (u64 deadline).
Proof.
  intros Ha Hm. unfold StableswapHpp.swap, StableswapHpp.write_i64,
    StableswapHpp.write_u8. cbv zeta.
  rewrite (write_u64_le_bytes StableswapHpp.SWAP)
    by (unfold is_u64, UINT64_MAX, StableswapHpp.SWAP; lia).
  rewrite (write_u64_le_bytes amount_in) by exact Ha.
  rewrite (write_u64_le_bytes min_out) by exact Hm.
  rewrite (write_u64_le_bytes (u64 deadline)) by apply u64_range.
  cbn [app]. rewrite <- !app_assoc. reflexivity.
Qed.

(** X23: the data of a [swap] instruction is 34 bytes long and determines
    its five arguments: two calls that build the same data were given the
    same token indices, amounts and deadline. *)
Theorem swap_injective
  (from to amount_in min_out deadline from' to' amount_in' min_out' deadline' : Z) :
  is_u64 amount_in -> is_u64 min_out -> is_i64 deadline ->
  is_u64 amount_in' -> is_u64 min_out' -> is_i64 deadline' ->
  length (StableswapHpp.swap from to amount_in min_out deadline) = 34%nat /\
  (StableswapHpp.swap from to amount_in min_out deadline
   = StableswapHpp.swap from' to' amount_in' min_out' deadline' ->
   from = from' /\ to = to' /\ amount_in = amount_in' /\
   min_out = min_out' /\ deadline = deadline').
Proof.
  intros Ha Hm Hd Ha' Hm' Hd'.
  rewrite !swap_layout by assumption. split.
  - rewrite !length_app, !le_bytes_length. reflexivity.
  - intros E.
    apply app_same_length_inv in E; [|rewrite !le_bytes_length; reflexivity].
    destruct E as [_ E].
    apply app_same_length_inv in E; [|reflexivity].
    destruct E as [Ef E]. injection Ef as ->.
    apply app_same_length_inv in E; [|reflexivity].
    destruct E as [Et E]. injection Et as ->.
    apply app_same_length_inv in E; [|rewrite !le_bytes_length; reflexivity].
    destruct E as [E1 E].
    apply app_same_length_inv in E; [|rewrite !le_bytes_length; reflexivity].
    destruct E as [E2 E3].
    apply le_bytes_injective in E1; [|assumption..].
    apply le_bytes_injective in E2; [|assumption..].
    apply le_bytes_injective in E3; [|apply u64_range..].
    repeat (split; [reflexivity || assumption|]).
    unfold is_i64, INT64_MIN, INT64_MAX in *.
    assert (Hu : forall z, - 2 ^ 63 <= z <= 2 ^ 63 - 1 ->
                 u64 z = if z <? 0 then z + 2 ^ 64 else z).
    { intros z Hz. destruct (Z.ltb_spec z 0).
      - unfold u64, wrap. symmetry. apply Z.mod_unique with (q := -1); lia.
      - apply u64_small. unfold is_u64, UINT64_MAX. lia. }
    rewrite (Hu deadline Hd), (Hu deadline' Hd') in E3.
    destruct (Z.ltb_spec deadline 0), (Z.ltb_spec deadline' 0); lia.
Qed.

Lemma swap_injective_witness :
  length (StableswapHpp.swap 0 1 1000000 990000 1700000000) = 34%nat /\
  (StableswapHpp.swap 0 1 1000000 990000 1700000000
   = StableswapHpp.swap 0 1 1000000 990000 1700000000 ->
   0 = 0 /\ 1 = 1 /\ 1000000 = 1000000 /\ 990000 = 990000 /\
   1700000000 = 1700000000).
Proof.
  apply (swap_injective 0 1 1000000 990000 1700000000
           0 1 1000000 990000 1700000000);
    unfold is_u64, is_i64, UINT64_MAX, INT64_MIN, INT64_MAX; lia.
Defined.

Lemma write_amounts_layout (amounts : list Z) : forall data_,
  Forall is_u64 amounts ->
  StableswapHpp.write_amounts amounts data_
  = data_ ++ flat_map (le_bytes 8) amounts.
Proof.
  induction amounts as [|amt rest IH]; intros data_ HF;
    cbn [StableswapHpp.write_amounts flat_map].
  - rewrite app_nil_r. reflexivity.
  - inversion HF as [|a r Ha Hrest]; subst.
    rewrite write_u64_le_bytes by exact Ha.
    rewrite IH by exact Hrest. rewrite <- app_assoc. reflexivity.
Qed.

(** The data of [addliqn] is the discriminator, the amounts in order
    and the minimum, eight little-endian bytes each:
    [16 + 8 * n] bytes for [n] amounts. *)
Theorem addliqn_layout (amounts : list Z) (min_lp : Z) :
  Forall is_u64 amounts -> is_u64 min_lp ->
  StableswapHpp.addliqn amounts min_lp
  = le_bytes 8 StableswapHpp.ADDLIQN ++ flat_map (le_bytes 8) amounts
    ++ le_bytes 8 min_lp /\
  length (StableswapHpp.addliqn amounts min_lp)
  = (16 + 8 * length amounts)%nat.
Proof.
  intros HF Hm.
  assert (E : StableswapHpp.addliqn amounts min_lp
              = le_bytes 8 StableswapHpp.ADDLIQN
                ++ flat_map (le_bytes 8) amounts ++ le_bytes 8 min_lp).
  { unfold StableswapHpp.addliqn. cbv zeta.
    rewrite (write_u64_le_bytes StableswapHpp.ADDLIQN)
      by (unfold is_u64, UINT64_MAX, StableswapHpp.ADDLIQN; lia).
    rewrite write_amounts_layout by exact HF.
    rewrite write_u64_le_bytes by exact Hm.
    cbn [app]. rewrite <- app_assoc. reflexivity. }
  split; [exact E|]. rewrite E.
  rewrite !length_app, !le_bytes_length.
  assert (Hl : length (flat_map (le_bytes 8) amounts)
               = (8 * length amounts)%nat).
  { clear. induction amounts as [|a r IH]; [reflexivity|].
    cbn [flat_map]. rewrite length_app, le_bytes_length, IH.
    cbn [length]. lia. }
  rewrite Hl. lia.
Qed.

Lemma addliqn_layout_witness :
  StableswapHpp.addliqn [100; 200; 300] 50
  = le_bytes 8 StableswapHpp.ADDLIQN ++ flat_map (le_bytes 8) [100; 200; 300]
    ++ le_bytes 8 50 /\
  length (StableswapHpp.addliqn [100; 200; 300] 50)
  = (16 + 8 * length [100; 200; 300])%nat.
Proof.
  apply (addliqn_layout [100; 200; 300] 50).
  - repeat constructor; unfold UINT64_MAX; lia.
  - unfold is_u64, UINT64_MAX. lia.
Defined.

(** ** More on deposits *)

(** X25: the initial deposit of stableswap.hpp never computes a square root:
    its loop leaves at the first test with [lp = 1], or, when
    [(1 + amt0 * amt1) / 2] is zero in 64 bits (in particular when an amount
    is zero), sets [lp = 0] and divides by it. *)
Theorem stableswap_initial_deposit (amt0 amt1 bal0 bal1 amp : Z) :
  is_u64 amt0 -> is_u64 amt1 ->
  StableswapHpp.calc_lp_tokens amt0 amt1 bal0 bal1 0 amp
  = if u64 ((1 + amt0 * amt1) / 2) =? 0 then DivByZero else Ret (Some 1).
Proof.
  intros H0 H1. unfold StableswapHpp.calc_lp_tokens. cbn [Z.eqb]. cbv zeta.
  pose proof (mul_u64_is_u128 amt0 amt1 H0 H1) as Hp.
  rewrite (u128_small (amt0 * amt1)) by exact Hp.
  set (p := amt0 * amt1) in *.
  assert (Hstep : forall k,
    StableswapHpp.initial_lp_loop (S (S k)) p 1
    = if u64 ((1 + p) / 2) =? 0 then DivByZero else Ret 1).
  { intros k. cbn [StableswapHpp.initial_lp_loop].
    rewrite udiv_nonzero by lia. cbn [bind]. rewrite Z.div_1_r.
    assert (Hfit : is_u128 (1 + p)).
    { unfold is_u64, is_u128, UINT64_MAX, UINT128_MAX, p in *.
      change (2 ^ 128) with (2 ^ 64 * 2 ^ 64). nia. }
    rewrite (u128_small (1 + p)) by exact Hfit.
    pose proof (u64_range ((1 + p) / 2)) as Hr. unfold is_u64 in Hr.
    destruct (Z.eqb_spec (u64 ((1 + p) / 2)) 0) as [E|E].
    - rewrite E. cbn [Z.geb Z.compare udiv Z.eqb bind]. reflexivity.
    - destruct (Z.geb_spec (u64 ((1 + p) / 2)) 1); [reflexivity|lia]. }
  change 64%nat with (S (S 62)). rewrite Hstep.
  destruct (u64 ((1 + p) / 2) =? 0); reflexivity.
Qed.

Lemma stableswap_initial_deposit_witness :
  StableswapHpp.calc_lp_tokens 100000000 400000000 0 0 0 100
  = if u64 ((1 + 100000000 * 400000000) / 2) =? 0
    then DivByZero else Ret (Some 1).
Proof.
  apply (stableswap_initial_deposit 100000000 400000000 0 0 100);
    unfold is_u64, UINT64_MAX; lia.
Defined.

(** X26: a deposit of nothing into a pool with supply mints nothing:
    whenever [calc_d] returns a nonzero invariant for the balances,
    [calc_lp_tokens 0 0] of math.hpp returns 0. *)
Theorem calc_lp_tokens_empty_deposit (bal0 bal1 lp_supply amp d0 : Z) :
  is_u64 bal0 -> is_u64 bal1 -> lp_supply <> 0 ->
  MathHpp.calc_d bal0 bal1 amp = Ret (Some d0) -> d0 <> 0 ->
  MathHpp.calc_lp_tokens 0 0 bal0 bal1 lp_supply amp = Ret (Some 0).
Proof.
  intros H0 H1 Hlp Hd Hnz. unfold MathHpp.calc_lp_tokens.
  destruct (Z.eqb_spec lp_supply 0); [contradiction|].
  rewrite !Z.add_0_r, !u64_small by assumption.
  rewrite Hd. cbn [bind].
  destruct (Z.eqb_spec d0 0); [contradiction|].
  rewrite Z.sub_diag. change (u64 0) with 0.
  unfold MathHpp.mul128. rewrite Z.mul_0_r. change (u128 0) with 0.
  rewrite udiv_nonzero by assumption. cbn [bind].
  rewrite Z.div_0_l by assumption. reflexivity.
Qed.

Lemma calc_lp_tokens_empty_deposit_witness :
  MathHpp.calc_lp_tokens 0 0 1000000 1000000 500 100 = Ret (Some 0).
Proof.
  apply (calc_lp_tokens_empty_deposit 1000000 1000000 500 100 2000000);
    try (unfold is_u64, UINT64_MAX; lia); try discriminate.
  vm_compute. reflexivity.
Defined.

(** ** Witnesses of earlier lemmas *)

Lemma isqrt_largest_root_witness :
  exists r, MathHpp.isqrt 1000000007 = Ret r /\
            r * r <= 1000000007 < (r + 1) * (r + 1).
Proof.
  apply (isqrt_largest_root 1000000007). unfold UINT64_MAX. lia.
Defined.

Lemma simulate_swap_fee_antitone_without_wrap_witness :
  9959950221 <= 9969950171.
Proof.
  apply (simulate_swap_fee_antitone_without_wrap
           1000000000000 1000000000000 10000000000 1000 30 40
           9969950171 9959950221);
    try (unfold is_u64, UINT64_MAX, FEE_DENOMINATOR; lia);
    vm_compute; reflexivity.
Defined.

Lemma calc_lp_tokens_incremental_witness :
  MathHpp.calc_lp_tokens 1000 1000 1000000 1000000 500 100
  = Ret (Some (u64 (500 * (2002000 - 2000000) / 2000000))).
Proof.
  apply (calc_lp_tokens_incremental 1000 1000 1000000 1000000 500 100
           2000000 2002000);
    try (unfold is_u64, UINT64_MAX; lia); try discriminate;
    vm_compute; reflexivity.
Defined.

(** ** N-token swap *)

Lemma calc_y_n_loop_calc_y_loop (iters : nat) : forall c b d y,
  MathHpp.calc_y_n_loop iters c b d y = MathHpp.calc_y_loop iters (u64 c) b d y.
Proof.
  induction iters as [|iters IH]; intros c b d y;
    cbn [MathHpp.calc_y_n_loop MathHpp.calc_y_loop]; [reflexivity|].
  cbv zeta. destruct (_ =? 0); [reflexivity|].
  destruct (_ >? _); destruct (_ <=? 1); try reflexivity; apply IH.
Qed.

Lemma calc_y_n_range (balances : list Z) (from_idx to_idx amount_in amp v : Z) :
  MathHpp.calc_y_n balances from_idx to_idx amount_in amp = Ret (Some v) ->
  is_u64 v.
Proof.
  unfold MathHpp.calc_y_n. intros H.
  apply bind_ret_inv in H. destruct H as [[d|] [_ H]]; [|discriminate].
  apply bind_ret_inv in H. destruct H as [[[s_prime c]|] [_ H]];
    [|discriminate].
  apply bind_ret_inv in H. destruct H as [c' [_ H]].
  apply bind_ret_inv in H. destruct H as [q [_ H]].
  rewrite calc_y_n_loop_calc_y_loop in H.
  eapply calc_y_loop_range. exact H.
Qed.

(** X27: for a fee of at most 10000 basis points, [simulate_swap_n] never
    returns more than the balance of the output token. *)
Theorem simulate_swap_n_le_bal_out
  (balances : list Z) (from_idx to_idx amount_in amp fee_bps r : Z) :
  MathHpp.n_tokens_of balances <= MathHpp.MAX_TOKENS ->
  0 <= from_idx < MathHpp.n_tokens_of balances ->
  0 <= to_idx < MathHpp.n_tokens_of balances ->
  Forall is_u64 balances -> 0 <= fee_bps <= FEE_DENOMINATOR ->
  MathHpp.simulate_swap_n balances from_idx to_idx amount_in amp fee_bps
  = Ret (Some r) ->
  0 <= r <= nth (Z.to_nat to_idx) balances 0.
Proof.
  intros _ _ Hto HF Hf. unfold MathHpp.simulate_swap_n.
  assert (Hb : is_u64 (nth (Z.to_nat to_idx) balances 0)).
  { rewrite Forall_forall in HF. apply HF. apply nth_In.
    unfold MathHpp.n_tokens_of in Hto. lia. }
  set (bal_to := nth (Z.to_nat to_idx) balances 0) in *.
  destruct (MathHpp.calc_y_n balances from_idx to_idx amount_in amp)
    as [[y|]| | |] eqn:Hy; cbn [bind]; try discriminate.
  apply calc_y_n_range in Hy. cbv zeta.
  unfold is_u64, UINT64_MAX, FEE_DENOMINATOR in *.
  destruct (Z.geb_spec y bal_to) as [Hge|Hlt].
  - intros H. injection H as <-. lia.
  - intros H. injection H as <-.
    rewrite (u64_small (bal_to - y)) by (unfold is_u64, UINT64_MAX; lia).
    set (gross := bal_to - y).
    assert (Hg : 0 < gross <= bal_to) by (unfold gross; lia).
    assert (Hm : 0 <= u64 (gross * fee_bps) <= gross * fee_bps).
    { unfold u64, wrap. split.
      - apply Z.mod_pos_bound. lia.
      - apply Z.mod_le; nia. }
    assert (Hfee : 0 <= u64 (gross * fee_bps) / 10000 <= gross).
    { split; [apply Z.div_pos; lia|].
      apply Z.div_le_upper_bound; [lia|]. nia. }
    rewrite u64_small by (unfold is_u64, UINT64_MAX; lia). lia.
Qed.

Lemma simulate_swap_n_le_bal_out_witness :
  0 <= 9969890 <= nth (Z.to_nat 1) [1000000000; 1000000000; 1000000000] 0.
Proof.
  apply (simulate_swap_n_le_bal_out [1000000000; 1000000000; 1000000000]
           0 1 10000000 100 30 9969890).
  - vm_compute. discriminate.
  - vm_compute. split; [discriminate|reflexivity].
  - vm_compute. split; [discriminate|reflexivity].
  - repeat constructor; unfold UINT64_MAX; lia.
  - unfold FEE_DENOMINATOR. lia.
  - vm_compute. reflexivity.
Defined.




(** Beyond that bound the two differ: [calc_y_n] cuts [c] to 64 bits, and a
    swap of 10^10 into the pool (10^12, 10^12) is quoted more than was put
    in. *)
Example simulate_swap_n_cuts_c :
  MathHpp.simulate_swap_n [1000000000000; 1000000000000] 0 1
    10000000000 1000 30 = Ret (Some 10452949103) /\
  MathHpp.simulate_swap 1000000000000 1000000000000
    10000000000 1000 30 = Ret (Some 9969950171).
Proof. split; vm_compute; reflexivity. Qed.

(** ** Base58 *)

Lemma value58_app (a b : list Z) :
  value58 (a ++ b) = value58 a + 58 ^ Z.of_nat (length a) * value58 b.
Proof.
  induction a as [|d a IH]; cbn [app value58 fold_right length].
  - change (58 ^ Z.of_nat 0) with 1. fold (value58 b). lia.
  - fold (value58 (a ++ b)). fold (value58 a). rewrite IH.
    rewrite Nat2Z.inj_succ, Z.pow_succ_r by lia. ring.
Qed.

Lemma b58_carry_loop_spec (digits : list Z) : forall carry,
  Forall is_digit58 digits -> 0 <= carry <= 255 ->
  Forall is_digit58 (fst (StableswapHpp.b58_carry_loop digits carry)) /\
  length (fst (StableswapHpp.b58_carry_loop digits carry)) = length digits /\
  0 <= snd (StableswapHpp.b58_carry_loop digits carry) <= 255 /\
  value58 (fst (StableswapHpp.b58_carry_loop digits carry))
  + 58 ^ Z.of_nat (length digits)
    * snd (StableswapHpp.b58_carry_loop digits carry)
  = carry + 256 * value58 digits.
Proof.
  induction digits as [|d rest IH]; intros carry HF Hc;
    cbn [StableswapHpp.b58_carry_loop].
  - cbn [fst snd length value58 fold_right].
    split; [constructor|]. split; [reflexivity|]. split; [lia|].
    change (58 ^ Z.of_nat 0) with 1. lia.
  - inversion HF as [|d' rest' Hd Hrest]; subst. unfold is_digit58 in Hd.
    rewrite Z.shiftl_mul_pow2 by lia. change (2 ^ 8) with 256.
    rewrite (wrap_small 32 (d * 256)) by lia.
    rewrite (wrap_small 32 (carry + d * 256)) by lia.
    set (c1 := carry + d * 256).
    assert (Hm : 0 <= c1 mod 58 < 58) by (apply Z.mod_pos_bound; lia).
    assert (Hq : 0 <= c1 / 58 <= 255).
    { split; [apply Z.div_pos; unfold c1; lia|].
      assert (c1 / 58 < 256); [|lia].
      apply Z.div_lt_upper_bound; unfold c1; lia. }
    rewrite (wrap_small 8 (c1 mod 58)) by lia.
    specialize (IH (c1 / 58) Hrest Hq).
    destruct (StableswapHpp.b58_carry_loop rest (c1 / 58)) as [rest2 c2].
    cbn [fst snd] in *. destruct IH as [F [L [B V]]].
    split; [constructor; [exact Hm|exact F]|].
    split; [cbn [length]; lia|]. split; [exact B|].
    cbn [value58 fold_right length]. fold (value58 rest2). fold (value58 rest).
    rewrite Nat2Z.inj_succ, Z.pow_succ_r by lia.
    pose proof (Z.div_mod c1 58 ltac:(lia)) as Hdm. unfold c1 in *. nia.
Qed.

Lemma b58_push_loop_spec (fuel : nat) : forall digits carry,
  Forall is_digit58 digits -> 0 <= carry < 58 ^ Z.of_nat fuel ->
  Forall is_digit58 (StableswapHpp.b58_push_loop fuel digits carry) /\
  (length digits <= length (StableswapHpp.b58_push_loop fuel digits carry))%nat /\
  value58 (StableswapHpp.b58_push_loop fuel digits carry)
  = value58 digits + 58 ^ Z.of_nat (length digits) * carry.
Proof.
  induction fuel as [|fuel IH]; intros digits carry HF Hc;
    cbn [StableswapHpp.b58_push_loop].
  - change (58 ^ Z.of_nat 0) with 1 in Hc. assert (carry = 0) by lia. subst.
    split; [exact HF|]. split; lia.
  - destruct (Z.eqb_spec carry 0) as [->|Hnz].
    + split; [exact HF|]. split; lia.
    + rewrite Nat2Z.inj_succ, Z.pow_succ_r in Hc by lia.
      assert (Hm : 0 <= carry mod 58 < 58) by (apply Z.mod_pos_bound; lia).
      rewrite (wrap_small 8 (carry mod 58)) by lia.
      assert (Hq : 0 <= carry / 58 < 58 ^ Z.of_nat fuel).
      { split; [apply Z.div_pos; lia|].
        apply Z.div_lt_upper_bound; lia. }
      assert (HF' : Forall is_digit58 (digits ++ [carry mod 58])).
      { apply Forall_app. split; [exact HF|]. constructor; [exact Hm|constructor]. }
      destruct (IH _ _ HF' Hq) as [F [L V]].
      split; [exact F|]. split.
      * rewrite length_app in L. cbn [length] in L. lia.
      * rewrite V, value58_app, length_app. cbn [length value58 fold_right].
        rewrite Nat2Z.inj_add. change (Z.of_nat 1) with 1.
        rewrite Z.pow_add_r by lia. change (58 ^ 1) with 58.
        pose proof (Z.div_mod carry 58 ltac:(lia)) as Hdm. nia.
Qed.

Lemma b58_byte_spec (digits : list Z) (byte : Z) :
  Forall is_digit58 digits -> is_byte byte ->
  Forall is_digit58 (StableswapHpp.b58_byte digits byte) /\
  (length digits <= length (StableswapHpp.b58_byte digits byte))%nat /\
  value58 (StableswapHpp.b58_byte digits byte) = value58 digits * 256 + byte.
Proof.
  intros HF Hb. unfold StableswapHpp.b58_byte, is_byte in *.
  pose proof (b58_carry_loop_spec digits byte HF Hb) as H.
  destruct (StableswapHpp.b58_carry_loop digits byte) as [ds c].
  cbn [fst snd] in H. destruct H as [F [L [B V]]].
  assert (Hc : 0 <= c < 58 ^ Z.of_nat 6) by (change (58 ^ Z.of_nat 6) with 38068692544; lia).
  destruct (b58_push_loop_spec 6 ds c F Hc) as [F' [L' V']].
  split; [exact F'|]. split; [lia|].
  rewrite V', L. lia.
Qed.

Lemma b58_fold_spec (key : list Z) : forall digits,
  Forall is_digit58 digits -> Forall is_byte key ->
  Forall is_digit58 (fold_left StableswapHpp.b58_byte key digits) /\
  (length digits <= length (fold_left StableswapHpp.b58_byte key digits))%nat /\
  value58 (fold_left StableswapHpp.b58_byte key digits)
  = fold_left (fun acc b => acc * 256 + b) key (value58 digits).
Proof.
  induction key as [|b rest IH]; intros digits HF HK; cbn [fold_left].
  - split; [exact HF|]. split; [lia|reflexivity].
  - inversion HK as [|b' r Hb Hrest]; subst.
    destruct (b58_byte_spec digits b HF Hb) as [F [L V]].
    destruct (IH _ F Hrest) as [F' [L' V']].
    split; [exact F'|]. split; [lia|]. rewrite V', V. reflexivity.
Qed.

Lemma b58_leading_zeros_spec (key : list Z) : forall digits,
  StableswapHpp.b58_leading_zeros key digits
  = digits ++ repeat 0 (leading_zero_bytes key).
Proof.
  induction key as [|b rest IH]; intros digits;
    cbn [StableswapHpp.b58_leading_zeros leading_zero_bytes].
  - cbn [repeat]. rewrite app_nil_r. reflexivity.
  - destruct (b =? 0).
    + rewrite IH. cbn [repeat]. rewrite <- app_assoc. reflexivity.
    + cbn [repeat]. rewrite app_nil_r. reflexivity.
Qed.

Lemma base58_digits_spec (key : list Z) :
  Forall is_byte key ->
  exists num,
    StableswapHpp.base58_digits key
    = num ++ repeat 0 (leading_zero_bytes key) /\
    Forall is_digit58 num /\ (1 <= length num)%nat /\
    value58 num = be_value key.
Proof.
  intros HK. unfold StableswapHpp.base58_digits. cbv zeta.
  rewrite b58_leading_zeros_spec.
  assert (H0 : Forall is_digit58 [0])
    by (constructor; [unfold is_digit58; lia|constructor]).
  destruct (b58_fold_spec key [0] H0 HK) as [F [L V]].
  eexists. split; [reflexivity|]. split; [exact F|].
  split; [cbn [length] in L; exact L|]. rewrite V. reflexivity.
Qed.

(** The vector [digits] of [base58_encode] holds, least significant
    first, base-58 digits whose value is the key read as a big-endian number
    (at least one digit, also for the number zero), followed by one zero
    digit for every leading zero byte of the key. *)
Theorem base58_digits_value (key : list Z) :
  Forall is_byte key ->
  exists num,
    StableswapHpp.base58_digits key
    = num ++ repeat 0 (leading_zero_bytes key) /\
    Forall is_digit58 num /\ (1 <= length num)%nat /\
    value58 num = be_value key.
Proof. apply base58_digits_spec. Qed.

Lemma base58_digits_value_witness :
  exists num,
    StableswapHpp.base58_digits [0; 0; 1; 2]
    = num ++ repeat 0 (leading_zero_bytes [0; 0; 1; 2]) /\
    Forall is_digit58 num /\ (1 <= length num)%nat /\
    value58 num = be_value [0; 0; 1; 2].
Proof.
  apply (base58_digits_value [0; 0; 1; 2]).
  repeat constructor; lia.
Defined.

Lemma alphabet_index_char_below (n : nat) :
  (n < 58)%nat ->
  index_in (StableswapHpp.alphabet_char (Z.of_nat n)) StableswapHpp.ALPHABET
  = Z.of_nat n.
Proof.
  intros Hn.
  assert (Hall : forallb
            (fun k => index_in (StableswapHpp.alphabet_char (Z.of_nat k))
                        StableswapHpp.ALPHABET =? Z.of_nat k)
            (seq 0 58) = true) by (vm_compute; reflexivity).
  rewrite forallb_forall in Hall.
  apply Z.eqb_eq. apply Hall. apply in_seq. lia.
Qed.

Lemma alphabet_index_char (d : Z) :
  is_digit58 d ->
  index_in (StableswapHpp.alphabet_char d) StableswapHpp.ALPHABET = d.
Proof.
  unfold is_digit58. intros Hd.
  rewrite <- (Z2Nat.id d) at 1 2 by lia.
  rewrite alphabet_index_char_below by lia. lia.
Qed.

Lemma text_fold_value58 (digits : list Z) :
  Forall is_digit58 digits ->
  fold_left (fun acc c => acc * 58 + index_in c StableswapHpp.ALPHABET)
    (map StableswapHpp.alphabet_char (rev digits)) 0
  = value58 digits.
Proof.
  induction digits as [|d rest IH]; intros HF; [reflexivity|].
  inversion HF as [|d' r Hd Hrest]; subst.
  cbn [rev]. rewrite map_app, fold_left_app. cbn [map fold_left].
  rewrite IH by exact Hrest. rewrite alphabet_index_char by exact Hd.
  cbn [value58 fold_right]. fold (value58 rest). lia.
Qed.

Lemma value58_zeros (n : nat) : value58 (repeat 0 n) = 0.
Proof.
  induction n as [|n IH]; [reflexivity|].
  cbn [repeat value58 fold_right]. fold (value58 (repeat 0 n)). lia.
Qed.

Lemma zeros_are_digits (n : nat) : Forall is_digit58 (repeat 0 n).
Proof.
  induction n as [|n IH]; cbn [repeat]; constructor; [|exact IH].
  unfold is_digit58. lia.
Qed.

(** X30: the text that [base58_encode] returns denotes the key: read as a
    base-58 number over the alphabet it is the big-endian value of the key
    bytes; it has one character for each digit, so at least one more than
    the key has leading zero bytes. *)
Theorem base58_encode_value (key : list Z) :
  Forall is_byte key ->
  text_value58 (StableswapHpp.base58_encode key) = be_value key /\
  (1 + leading_zero_bytes key
   <= String.length (StableswapHpp.base58_encode key))%nat.
Proof.
  intros HK. destruct (base58_digits_spec key HK) as [num [E [F [L V]]]].
  unfold text_value58, StableswapHpp.base58_encode.
  rewrite list_ascii_of_string_of_list_ascii. split.
  - rewrite text_fold_value58.
    + rewrite E, value58_app, value58_zeros. lia.
    + rewrite E. apply Forall_app. split; [exact F|apply zeros_are_digits].
  - assert (Hlen : forall l, String.length (string_of_list_ascii l)
                             = length l).
    { intros l. induction l as [|c l IH]; cbn; [reflexivity|].
      rewrite IH. reflexivity. }
    rewrite Hlen, length_map, length_rev, E, length_app, repeat_length. lia.
Qed.

Lemma base58_encode_value_witness :
  text_value58 (StableswapHpp.base58_encode [0; 0; 1; 2]) = be_value [0; 0; 1; 2]
  /\ (1 + leading_zero_bytes [0%Z; 0%Z; 1%Z; 2%Z]
      <= String.length
           (StableswapHpp.base58_encode [0%Z; 0%Z; 1%Z; 2%Z]))%nat.
Proof.
  apply (base58_encode_value [0; 0; 1; 2]).
  repeat constructor; lia.
Defined.

(** The key of 32 zero bytes is written with 33 characters. *)
Example base58_encode_zero_key :
  StableswapHpp.base58_encode (repeat 0 32)
  = "111111111111111111111111111111111"%string.
Proof. vm_compute. reflexivity. Qed.

(** ** Instances of the characterisations *)

Lemma math_calc_d_fault_iff_witness : MathHpp.calc_d 0 5 1 = DivByZero.
Proof.
  apply (proj1 (math_calc_d_fault_iff 0 5 1)).
  split; [vm_compute; discriminate | left; reflexivity].
Defined.

Lemma math_calc_y_fault_iff_witness : MathHpp.calc_y 0 2000000 100 = DivByZero.
Proof.
  apply (proj1 (math_calc_y_fault_iff 0 2000000 100)).
  left. reflexivity.
Defined.

Lemma calc_virtual_price_value_witness :
  MathHpp.calc_virtual_price 1000000 1000000 500 100
  = Ret (Some (2000000 * MathHpp.PRECISION_18 / 500)).
Proof.
  apply (proj2 (calc_virtual_price_value 1000000 1000000 500 100) 2000000).
  - discriminate.
  - vm_compute. reflexivity.
Defined.

Lemma check_imbalance_symmetric_witness :
  MathHpp.check_imbalance 100 500 10 = true.
Proof.
  apply (proj2 (proj2 (check_imbalance_symmetric 100 500 10))).
  - lia.
  - lia.
  - lia.
  - vm_compute. discriminate.
  - vm_compute. discriminate.
Defined.
